(** * BayanAI: the live conversation component, the summary validation
      and the user store

    A shallow embedding of three pieces of the application:

    - [LiveConversation]: the React component that streams microphone audio
      to a live session and schedules the agent's audio chunks on an output
      [AudioContext] (components/LiveConversation.tsx);
    - [Gemini]: the validation that [summarizeLecture] applies to the model's
      response text (services/gemini.ts);
    - [Storage]: [StorageService.login] and [StorageService.register] over
      [localStorage] (services/storage.ts).

    Times are seconds as rationals ([Q]); the Web Audio clock and buffer
    durations are JavaScript numbers, and only their order and sums matter
    here.  The samples of a capture frame are Float32 values and their sum
    is a double, rounded at each addition. *)

From Stdlib Require Import QArith Qminmax Qabs Lqa Ascii String.
From stdpp Require Import base list strings.
From stdpp Require Import sorting.

(** What a JavaScript call does: it returns a value or throws. *)
Inductive Completion (A : Type) : Type :=
| Returned (a : A)
| Thrown (message : string).
Arguments Returned {A} a.
Arguments Thrown {A} message.

#[global] Instance Completion_bind : MBind Completion :=
  λ A B k c,
    match c with
    | Returned a => k a
    | Thrown m => Thrown m
    end.

(* ===================================================================== *)
(** * components/LiveConversation.tsx *)
(* ===================================================================== *)
Module LiveConversation.

(** Identity of a browser object (audio context, media stream, audio node,
    live session). *)
Definition Handle := nat.

(** The audio payload of a server message, seen through
    [decodeAudioData(decode(audioData), outputContext, 24000, 1)]: the call
    yields an [AudioBuffer] of some duration, or it throws. *)
Inductive Chunk : Type :=
| Decodable (duration : Q)
| Malformed.

(** The two fields of a [LiveServerMessage] that [onMessage] reads:
    [serverContent.modelTurn.parts[0].inlineData.data] ([None] when any link
    of the optional chain is missing or the data is empty) and
    [serverContent.interrupted]. *)
Record LiveServerMessage : Type := mkMessage {
  inlineData : option Chunk;
  interrupted : bool
}.

(** What the component asks of the browser and of the live session.
    [SessionClose] is the request to close the session ([session.close()]);
    it is part of the session's interface, and no function below makes it. *)
Inductive Effect : Type :=
| NewAudioContext (ctx : Handle) (sampleRate : Z)
| GetUserMedia
| LiveConnect (session : Handle)
| CreateMediaStreamSource (node stream : Handle)
| CreateScriptProcessor (node : Handle) (bufferSize : Z)
| NodeConnect (node : Handle) (destination : option Handle)
| NodeDisconnect (node : Handle)
| TrackStop (stream : Handle)
| ContextClose (ctx : Handle)
| SendRealtimeInput (session : Handle)
| SessionClose (session : Handle)
| SourceStart (source : nat) (when : Q)
| SourceStop (source : nat)
| Alert.

(** The [useState] cells and the [useRef] cells of the component.
    [sourcesRef] is a JavaScript [Set], kept in insertion order. *)
Record LiveState : Type := mkLive {
  isConnected : bool;
  isSpeaking : bool;
  isAgentSpeaking : bool;
  audioContextRef : option Handle;
  mediaStreamRef : option Handle;
  processorRef : option Handle;
  sourceRef : option Handle;
  sessionRef : option Handle;
  nextStartTimeRef : Q;
  sourcesRef : list nat
}.

Definition initial : LiveState :=
  mkLive false false false None None None None None 0 [].

(** ** The [Set] of scheduled sources *)

Definition set_add (x : nat) (s : list nat) : list nat :=
  if bool_decide (x ∈ s) then s else s ++ [x].

Definition set_delete (x : nat) (s : list nat) : list nat :=
  filter (λ y, y ≠ x) s.

(** ** Updates of single cells *)

Definition setIsConnected (b : bool) (s : LiveState) : LiveState :=
  mkLive b (isSpeaking s) (isAgentSpeaking s) (audioContextRef s)
    (mediaStreamRef s) (processorRef s) (sourceRef s) (sessionRef s)
    (nextStartTimeRef s) (sourcesRef s).

Definition setIsSpeaking (b : bool) (s : LiveState) : LiveState :=
  mkLive (isConnected s) b (isAgentSpeaking s) (audioContextRef s)
    (mediaStreamRef s) (processorRef s) (sourceRef s) (sessionRef s)
    (nextStartTimeRef s) (sourcesRef s).

Definition setIsAgentSpeaking (b : bool) (s : LiveState) : LiveState :=
  mkLive (isConnected s) (isSpeaking s) b (audioContextRef s)
    (mediaStreamRef s) (processorRef s) (sourceRef s) (sessionRef s)
    (nextStartTimeRef s) (sourcesRef s).

Definition setNextStartTime (t : Q) (s : LiveState) : LiveState :=
  mkLive (isConnected s) (isSpeaking s) (isAgentSpeaking s) (audioContextRef s)
    (mediaStreamRef s) (processorRef s) (sourceRef s) (sessionRef s)
    t (sourcesRef s).

Definition setSources (l : list nat) (s : LiveState) : LiveState :=
  mkLive (isConnected s) (isSpeaking s) (isAgentSpeaking s) (audioContextRef s)
    (mediaStreamRef s) (processorRef s) (sourceRef s) (sessionRef s)
    (nextStartTimeRef s) l.

(** ** [stopEverything] *)

Definition release (f : Handle → Effect) (r : option Handle) : list Effect :=
  match r with
  | Some h => [f h]
  | None => []
  end.

Definition stopEverything (s : LiveState) : LiveState * list Effect :=
  (mkLive false false false None None None None (sessionRef s) 0 [],
   release TrackStop (mediaStreamRef s)
   ++ release NodeDisconnect (processorRef s)
   ++ release NodeDisconnect (sourceRef s)
   ++ release ContextClose (audioContextRef s)
   ++ map SourceStop (sourcesRef s)).

(** ** [startSession]

    The function is asynchronous.  Its first part runs up to
    [await navigator.mediaDevices.getUserMedia]; the second part runs when
    the promise settles. *)

Definition startSession_begin (inCtx outCtx : Handle) (s : LiveState)
  : LiveState * list Effect :=
  (mkLive (isConnected s) (isSpeaking s) (isAgentSpeaking s) (Some inCtx)
     (mediaStreamRef s) (processorRef s) (sourceRef s) (sessionRef s)
     (nextStartTimeRef s) (sourcesRef s),
   [NewAudioContext inCtx 16000; NewAudioContext outCtx 24000; GetUserMedia]).

Definition startSession_granted (stream session : Handle) (s : LiveState)
  : LiveState * list Effect :=
  (mkLive (isConnected s) (isSpeaking s) (isAgentSpeaking s) (audioContextRef s)
     (Some stream) (processorRef s) (sourceRef s) (Some session)
     (nextStartTimeRef s) (sourcesRef s),
   [LiveConnect session]).

Definition startSession_denied (s : LiveState) : LiveState * list Effect :=
  (s, [Alert]).

(** ** The callbacks given to [connectLiveSession] *)

Definition onOpen (stream source processor : Handle) (s : LiveState)
  : LiveState * list Effect :=
  let s1 := setIsConnected true s in
  match audioContextRef s1 with
  | None => (s1, [])
  | Some _ =>
      (mkLive (isConnected s1) (isSpeaking s1) (isAgentSpeaking s1)
         (audioContextRef s1) (mediaStreamRef s1) (Some processor)
         (Some source) (sessionRef s1) (nextStartTimeRef s1) (sourcesRef s1),
       [CreateMediaStreamSource source stream;
        CreateScriptProcessor processor 4096;
        NodeConnect source (Some processor);
        NodeConnect processor None])
  end.

(** ** Samples and their sum

    A sample of the input buffer is a finite Float32 value.  Every such
    value is a whole number of steps of 2^-149, and so is every double that
    the summing of a frame reaches; a value is kept as this whole number,
    1.0 being [unit]. *)
Definition Sample : Type := Z.

Definition unit : Z := (2 ^ 149)%Z.

(** The values a Float32 can hold: 24 significant bits, up to 2^128. *)
Definition isFloat32 (x : Sample) : Prop :=
  ∃ m j, (0 <= m < 2 ^ 24 ∧ 0 <= j <= 253 ∧ Z.abs x = m * 2 ^ j)%Z.

(** The double nearest to an exact sum: 53 significant bits are kept, a tie
    goes to the even neighbour.  Frames of 4096 samples stay far below the
    largest double. *)
Definition roundDouble (n : Z) : Z :=
  let a := Z.abs n in
  if (a <? 2 ^ 53)%Z then n
  else
    let s := (Z.log2 a - 52)%Z in
    let q := (a / 2 ^ s)%Z in
    let r := (a mod 2 ^ s)%Z in
    let half := (2 ^ (s - 1))%Z in
    let q' := if (r <? half)%Z then q
              else if (half <? r)%Z then (q + 1)%Z
              else if Z.even q then q else (q + 1)%Z in
    (Z.sgn n * (q' * 2 ^ s))%Z.

(** [inputData.reduce((a, b) => a + Math.abs(b), 0)], each [+] a double
    addition. *)
Definition volume (inputData : list Sample) : Z :=
  fold_left (λ a b, roundDouble (a + Z.abs b)%Z) inputData 0%Z.

(** [sum > 10] *)
Definition userSpeaking (inputData : list Sample) : bool :=
  (10 * unit <? volume inputData)%Z.

Definition onaudioprocess (inputData : list Sample) (s : LiveState)
  : LiveState * list Effect :=
  (setIsSpeaking (userSpeaking inputData) s,
   release SendRealtimeInput (sessionRef s)).

(** How the promise returned by the asynchronous [onMessage] settles. *)
Inductive Settled : Type := Resolved | Rejected.

(** The start time given to [source.start]. *)
Definition scheduledStart (cursor currentTime : Q) : Q :=
  if Qlt_le_dec cursor currentTime then currentTime else cursor.

(** The second [if] of [onMessage]. *)
Definition handleInterrupted (msg : LiveServerMessage) (s : LiveState)
  : LiveState * list Effect :=
  if interrupted msg then
    (setIsAgentSpeaking false (setNextStartTime 0 (setSources [] s)),
     map SourceStop (sourcesRef s))
  else (s, []).

(** [currentTime] is [outputContext.currentTime] and [source] the node made
    by [outputContext.createBufferSource()].  A call is taken as a whole:
    no other callback of the component runs between the [await] of the
    decoding and the rest of the body. *)
Definition onMessage (currentTime : Q) (source : nat) (msg : LiveServerMessage)
    (s : LiveState) : LiveState * list Effect * Settled :=
  match inlineData msg with
  | Some Malformed => (setIsAgentSpeaking true s, [], Rejected)
  | Some (Decodable duration) =>
      let s1 := setIsAgentSpeaking true s in
      let start := scheduledStart (nextStartTimeRef s1) currentTime in
      let s2 := setNextStartTime (start + duration) s1 in
      let s3 := setSources (set_add source (sourcesRef s2)) s2 in
      let '(s4, stops) := handleInterrupted msg s3 in
      (s4, SourceStart source start :: stops, Resolved)
  | None =>
      let '(s1, stops) := handleInterrupted msg s in
      (s1, stops, Resolved)
  end.

(** [source.onended] *)
Definition onended (source : nat) (s : LiveState) : LiveState * list Effect :=
  let s1 := setSources (set_delete source (sourcesRef s)) s in
  (if decide (length (sourcesRef s1) = 0%nat)
   then setIsAgentSpeaking false s1 else s1, []).

(** ** The component as a transition system *)

Inductive Event : Type :=
| Click (inCtx outCtx : Handle)
| MediaGranted (stream session : Handle)
| MediaDenied
| OnOpen (stream source processor : Handle)
| OnAudioProcess (inputData : list Sample)
| OnMessage (currentTime : Q) (source : nat) (msg : LiveServerMessage)
| OnEnded (source : nat)
| OnClose
| OnError
| Unmount.

(** The button runs [isConnected ? stopEverything : startSession]. *)
Definition step (s : LiveState) (e : Event) : LiveState * list Effect :=
  match e with
  | Click inCtx outCtx =>
      if isConnected s then stopEverything s
      else startSession_begin inCtx outCtx s
  | MediaGranted stream session => startSession_granted stream session s
  | MediaDenied => startSession_denied s
  | OnOpen stream source processor => onOpen stream source processor s
  | OnAudioProcess inputData => onaudioprocess inputData s
  | OnMessage currentTime source msg => (onMessage currentTime source msg s).1
  | OnEnded source => onended source s
  | OnClose | OnError | Unmount => stopEverything s
  end.

Fixpoint run (s : LiveState) (trace : list Event) : LiveState * list Effect :=
  match trace with
  | [] => (s, [])
  | e :: trace' =>
      let '(s1, out1) := step s e in
      let '(s2, out2) := run s1 trace' in
      (s2, out1 ++ out2)
  end.

(** The start times handed to [source.start], in the order of the calls. *)
Fixpoint starts (log : list Effect) : list Q :=
  match log with
  | [] => []
  | SourceStart _ t :: log' => t :: starts log'
  | _ :: log' => starts log'
  end.

(** ** Chunks that arrive one after the other *)

(** A decoded chunk at the moment [onMessage] schedules it: the value of
    [outputContext.currentTime], the source node made for it and the duration
    of its buffer. *)
Record Arrival : Type := mkArrival {
  clock : Q;
  node : nat;
  duration : Q
}.

Definition chunkEvent (a : Arrival) : Event :=
  OnMessage (clock a) (node a) (mkMessage (Some (Decodable (duration a))) false).



(** ** Vocabulary for the properties *)

(** A connected session in which source 7 is playing and the cursor is at
    3 seconds. *)
Definition speakingState : LiveState :=
  mkLive true false true (Some 1) (Some 3) (Some 6) (Some 5) (Some 4) 3%Q [7].

Definition interruption : LiveServerMessage := mkMessage None true.

(** A message whose audio, when it has some, decodes. *)
Definition decodes (msg : LiveServerMessage) : Prop :=
  inlineData msg ≠ Some Malformed.

(** The output clock read while [e] is handled is at least [t]. *)
Definition clockFrom (t : Q) (e : Event) : Prop :=
  match e with
  | OnMessage currentTime _ _ => (t <= currentTime)%Q
  | _ => True
  end.

Definition notOpen (e : Event) : Prop :=
  match e with
  | OnOpen _ _ _ => False
  | _ => True
  end.

Definition decodesEvent (e : Event) : Prop :=
  match e with
  | OnMessage _ _ msg => decodes msg
  | _ => True
  end.

(** [isAgentSpeaking] is true exactly when the set of sources is not empty. *)
Definition agentFlagMatches (s : LiveState) : Prop :=
  isAgentSpeaking s = true ↔ sourcesRef s ≠ [].

(** The sources that are active when the interruption block of [onMessage]
    runs: those of the state, and the one the message itself adds. *)
Definition activeAtInterruption (source : nat) (msg : LiveServerMessage)
    (s : LiveState) : list nat :=
  match inlineData msg with
  | Some (Decodable _) => set_add source (sourcesRef s)
  | _ => sourcesRef s
  end.

(** ** The capture frame *)

(** [createScriptProcessor(4096, 1, 1)]: every frame has 4096 samples. *)
Definition frameSize : nat := 4096.

(** The exact sum of the absolute values of the samples. *)
Definition sumAbs (inputData : list Sample) : Z :=
  foldr (λ x acc, Z.abs x + acc)%Z 0%Z inputData.

(** Mean absolute amplitude of a frame, exact, 1 being full scale. *)
Definition meanAmplitude (inputData : list Sample) : Q :=
  Qmake (sumAbs inputData) (Z.to_pos (unit * Z.of_nat (length inputData))).

(** The threshold on the mean that [sum > 10] stands for. *)
Definition activityThreshold : Q := 10 # 4096.

(** Ten samples at full scale, then 4086 samples of 2^-51. *)
Definition quietFrame : list Sample :=
  replicate 10 unit ++ replicate 4086 (2 ^ 98)%Z.

(** Ten samples at full scale, one of 2^-50 + 2^-73, then zeros. *)
Definition loudFrame : list Sample :=
  replicate 10 unit ++ [(2 ^ 99 + 2 ^ 76)%Z] ++ replicate 4085 0%Z.

(** All samples at 1/100 of full scale, up to the 24 bits of a Float32. *)
Definition steadyFrame : list Sample :=
  replicate 4096 (10737418 * 2 ^ 119)%Z.

(** ** A session that is started, opened and stopped *)

Definition startOpenStop : list Event :=
  [Click 1 2; MediaGranted 3 4; OnOpen 3 5 6; Click 0 0].

Definition startGranted : list Event := [Click 1 2; MediaGranted 3 4].

(** The effects that build the capture graph. *)
Definition buildsGraph (e : Effect) : Prop :=
  match e with
  | CreateMediaStreamSource _ _ | CreateScriptProcessor _ _ | NodeConnect _ _ => True
  | _ => False
  end.

(** Before [onOpen] has run nothing has built the capture graph. *)
Definition graphless (s : LiveState) : Prop :=
  sourceRef s = None ∧ processorRef s = None ∧ isConnected s = false.

(** ** More vocabulary *)



(** The sources whose [onended] has run. *)
Fixpoint ended (trace : list Event) : list nat :=
  match trace with
  | [] => []
  | OnEnded x :: trace' => x :: ended trace'
  | _ :: trace' => ended trace'
  end.

End LiveConversation.

(* ===================================================================== *)
(** * services/gemini.ts: [summarizeLecture] *)
(* ===================================================================== *)
Module Gemini.

(** JavaScript values as [JSON.parse] builds them, with [undefined] for a
    missing property.  An object is its list of own properties. *)
#[warnings="-register-all"]
Inductive Value : Type :=
| VUndefined
| VNull
| VBool (b : bool)
| VNumber (q : Q)
| VString (s : string)
| VArray (items : list Value)
| VObject (props : list (string * Value)).

Definition truthy (v : Value) : bool :=
  match v with
  | VUndefined | VNull => false
  | VBool b => b
  | VNumber q => negb (Qeq_bool q 0)
  | VString s => negb (String.eqb s "")
  | VArray _ | VObject _ => true
  end.

(** [a || b] *)
Definition orElse (a b : Value) : Value := if truthy a then a else b.

(** [Array.isArray(v)] *)
Definition isArray (v : Value) : bool :=
  match v with
  | VArray _ => true
  | _ => false
  end.

Fixpoint ownProperty (name : string) (props : list (string * Value)) : Value :=
  match props with
  | [] => VUndefined
  | (k, v) :: rest => if String.eqb name k then v else ownProperty name rest
  end.

(** [v.name], for the names this file reads ([summary_short], [claims], ...):
    none of them is found on a prototype, so every value other than an
    object with that own property gives [undefined], and reading a property
    of [null] or [undefined] throws. *)
Definition getProperty (v : Value) (name : string) : Completion Value :=
  match v with
  | VUndefined | VNull => Thrown "TypeError"
  | VObject props => Returned (ownProperty name props)
  | _ => Returned VUndefined
  end.

Fixpoint putProperty (name : string) (x : Value) (props : list (string * Value))
  : list (string * Value) :=
  match props with
  | [] => [(name, x)]
  | (k, v) :: rest =>
      if String.eqb name k then (k, x) :: rest
      else (k, v) :: putProperty name x rest
  end.

(** [v.name = x] in module (strict) code, for a truthy [v]: a primitive
    cannot take a property.  An array takes it beside its items, which
    [Value] does not show. *)
Definition setProperty (v : Value) (name : string) (x : Value) : Completion Value :=
  match v with
  | VObject props => Returned (VObject (putProperty name x props))
  | VArray items => Returned (VArray items)
  | _ => Thrown "TypeError"
  end.

(** At run time every field holds whatever value the response carried. *)
Record LectureSummary : Type := mkSummary {
  summary_short : Value;
  summary_medium : Value;
  summary_long : Value;
  claims : Value;
  transliterations : Value;
  warnings : Value
}.

Definition fallback : Value := VString "Summary generation failed.".

Definition arrayOrEmpty (v : Value) : Value :=
  if isArray v then v else VArray [].

(** The object literal that builds [summaryData], fields in source order. *)
Definition buildSummary (parsed : Value) : Completion LectureSummary :=
  s ← getProperty parsed "summary_short";
  m ← getProperty parsed "summary_medium";
  l ← getProperty parsed "summary_long";
  c ← getProperty parsed "claims";
  t ← getProperty parsed "transliterations";
  w ← getProperty parsed "warnings";
  Returned (mkSummary (orElse s fallback) (orElse m fallback) (orElse l fallback)
              (arrayOrEmpty c) (arrayOrEmpty t) (arrayOrEmpty w)).

(** A grounding chunk: [c.web], when present, with its [title] and [uri]. *)
Record Web : Type := mkWeb { title : Value; uri : Value }.
Definition GroundingChunk : Type := option Web.

Definition webUri (c : GroundingChunk) : Value :=
  match c with
  | Some w => uri w
  | None => VUndefined
  end.

(** [groundingChunks.filter(c => c.web?.uri).map(c => ({title, uri}))] *)
Definition groundingSources (chunks : list GroundingChunk) : list Value :=
  omap (λ c : GroundingChunk,
          match c with
          | Some w =>
              if truthy (uri w)
              then Some (VObject [("title"%string, title w); ("uri"%string, uri w)])
              else None
          | None => None
          end) chunks.

Definition setClaims (c : Value) (s : LectureSummary) : LectureSummary :=
  mkSummary (summary_short s) (summary_medium s) (summary_long s) c
    (transliterations s) (warnings s).

(** The block that attaches the sources to [summaryData.claims[0]]. *)
Definition attachSources (groundingChunks : option (list GroundingChunk))
    (s : LectureSummary) : Completion LectureSummary :=
  match groundingChunks, claims s with
  | Some chunks, VArray (first :: rest) =>
      match groundingSources chunks with
      | [] => Returned s
      | sources =>
          if truthy first then
            first' ← setProperty first "sources" (VArray sources);
            Returned (setClaims (VArray (first' :: rest)) s)
          else Returned s
      end
  | _, _ => Returned s
  end.

(** ** The cleaning of the response text *)

Definition isPrefix (p s : string) : bool := String.prefix p s.

(** [s.replace(/pat/g, '')] for a literal, non-empty [pat]: matches are
    found left to right and do not overlap; [skip] counts the characters of
    the current match still to drop. *)
Fixpoint removeAllFrom (pat : string) (skip : nat) (s : string) : string :=
  match s with
  | EmptyString => EmptyString
  | String c s' =>
      match skip with
      | S k => removeAllFrom pat k s'
      | O =>
          if isPrefix pat s
          then removeAllFrom pat (String.length pat - 1) s'
          else String c (removeAllFrom pat 0 s')
      end
  end.

Definition removeAll (pat s : string) : string := removeAllFrom pat 0 s.

(** White space of [String.prototype.trim] in the ASCII range. *)
Definition isSpace (c : ascii) : bool :=
  let n := nat_of_ascii c in
  (Nat.eqb n 32 || (Nat.leb 9 n && Nat.leb n 13))%bool.

Fixpoint trimStart (s : string) : string :=
  match s with
  | EmptyString => EmptyString
  | String c s' => if isSpace c then trimStart s' else s
  end.

Fixpoint trimEnd (s : string) : string :=
  match s with
  | EmptyString => EmptyString
  | String c s' =>
      match trimEnd s' with
      | EmptyString => if isSpace c then EmptyString else String c EmptyString
      | t => String c t
      end
  end.

Definition trim (s : string) : string := trimEnd (trimStart s).

(** [response.text || "{}"], the two [replace] calls and [trim]. *)
Definition jsonStr (text : option string) : string :=
  let t := match text with
           | Some s => if String.eqb s "" then "{}" else s
           | None => "{}"
           end%string in
  trim (removeAll "```" (removeAll "```json" t)).

(** Lines 67 to 100, from the outcome of [JSON.parse(jsonStr)]: [None] when
    it throws, which the [catch] turns into the initial [{}]. *)
Definition summaryOfParsed (outcome : option Value)
    (groundingChunks : option (list GroundingChunk)) : Completion LectureSummary :=
  let parsed := match outcome with
                | Some v => v
                | None => VObject []
                end in
  s ← buildSummary parsed;
  attachSources groundingChunks s.

Section WithParser.
(** [JSON.parse], a built-in of the language. *)
Variable JSON_parse : string → option Value.

Definition summarizeLecture (text : option string)
    (groundingChunks : option (list GroundingChunk)) : Completion LectureSummary :=
  summaryOfParsed (JSON_parse (jsonStr text)) groundingChunks.
End WithParser.

(** ** Vocabulary for the properties *)

(** [JSON.parse] on the three literal names of JSON, and on nothing else. *)
Definition parseLiteral (s : string) : option Value :=
  if String.eqb s "null" then Some VNull
  else if String.eqb s "true" then Some (VBool true)
  else if String.eqb s "false" then Some (VBool false)
  else None.

Definition isNonEmptyString (v : Value) : Prop :=
  ∃ s, v = VString s ∧ s ≠ ""%string.

(** What the caller of [summarizeLecture] relies on. *)
Definition wellFormed (s : LectureSummary) : Prop :=
  isNonEmptyString (summary_short s)
  ∧ isNonEmptyString (summary_medium s)
  ∧ isNonEmptyString (summary_long s)
  ∧ isArray (claims s) = true
  ∧ isArray (transliterations s) = true
  ∧ isArray (warnings s) = true.

(** ** More vocabulary *)

(** The character [c] occurs in [s]. *)
Fixpoint occurs (c : ascii) (s : string) : bool :=
  match s with
  | EmptyString => false
  | String d s' => (Ascii.eqb c d || occurs c s')%bool
  end.

(** A parsed response that has the three summaries as non-empty strings and
    the two required lists as arrays. *)
Definition complete (props : list (string * Value)) (a b c : string)
    (cl tr : list Value) : Prop :=
  ownProperty "summary_short" props = VString a ∧ a ≠ ""%string
  ∧ ownProperty "summary_medium" props = VString b ∧ b ≠ ""%string
  ∧ ownProperty "summary_long" props = VString c ∧ c ≠ ""%string
  ∧ ownProperty "claims" props = VArray cl
  ∧ ownProperty "transliterations" props = VArray tr.

End Gemini.

(* ===================================================================== *)
(** * services/storage.ts: the user store *)
(* ===================================================================== *)
Module Storage.

Inductive TransliterationScheme : Type := ISO | Buckwalter.

Record UserPreferences : Type := mkPreferences {
  transliterationScheme : TransliterationScheme;
  includeLiteralTranslation : bool
}.

Record User : Type := mkUser {
  id : string;
  username : string;
  email : string;
  preferences : UserPreferences
}.

Definition DEFAULT_PREFERENCES : UserPreferences := mkPreferences ISO true.

(** The two [localStorage] items that the user functions touch.  The item
    under [USERS_KEY] is the JSON text of a [User[]], kept here as the array
    it parses to; [None] is a missing item. *)
Record LocalStorage : Type := mkStorage {
  bayan_users : option (list User);
  bayan_current_user_id : option string
}.

Definition getUsers (st : LocalStorage) : list User :=
  match bayan_users st with
  | Some users => users
  | None => []
  end.

Definition setUsers (users : list User) (st : LocalStorage) : LocalStorage :=
  mkStorage (Some users) (bayan_current_user_id st).

Definition setCurrentUser (uid : string) (st : LocalStorage) : LocalStorage :=
  mkStorage (bayan_users st) (Some uid).

Definition saveUser (user : User) (st : LocalStorage) : LocalStorage :=
  let users := getUsers st in
  match list_find (λ u, id u = id user) users with
  | Some (existingIndex, _) => setUsers (<[existingIndex := user]> users) st
  | None => setUsers (users ++ [user]) st
  end.

Section WithLowerCase.
(** [String.prototype.toLowerCase], a built-in of the language. *)
Variable toLowerCase : string → string.

Definition sameName (name : string) (u : User) : Prop :=
  toLowerCase (username u) = toLowerCase name.

#[local] Instance sameName_dec name u : Decision (sameName name u).
Proof. unfold sameName. apply _. Defined.

(** [users.find(u => u.username.toLowerCase() === username.toLowerCase())] *)
Definition findByName (name : string) (users : list User) : option User :=
  snd <$> list_find (sameName name) users.

Definition login (name : string) (st : LocalStorage)
  : LocalStorage * option User :=
  match findByName name (getUsers st) with
  | Some user => (setCurrentUser (id user) st, Some user)
  | None => (st, None)
  end.

(** Some stored user has the given name, ignoring case. *)
Definition nameTaken (name : string) (st : LocalStorage) : Prop :=
  ∃ u, u ∈ getUsers st ∧ toLowerCase (username u) = toLowerCase name.

(** [uuid] is the value of [crypto.randomUUID()]. *)
Definition register (name mail uuid : string) (st : LocalStorage)
  : LocalStorage * Completion User :=
  match findByName name (getUsers st) with
  | Some _ => (st, Thrown "Username already exists")
  | None =>
      let newUser := mkUser uuid name mail DEFAULT_PREFERENCES in
      (setCurrentUser (id newUser) (saveUser newUser st), Returned newUser)
  end.
End WithLowerCase.

(** Lower case of the letters A to Z, as [toLowerCase] acts on ASCII text. *)
Definition asciiLower (c : ascii) : ascii :=
  let n := nat_of_ascii c in
  if (Nat.leb 65 n && Nat.leb n 90)%bool then ascii_of_nat (n + 32) else c.

Fixpoint asciiToLowerCase (s : string) : string :=
  match s with
  | EmptyString => EmptyString
  | String c s' => String (asciiLower c) (asciiToLowerCase s')
  end.

(** ** The other user functions *)

(** [localStorage.removeItem(CURRENT_USER_KEY)] *)
Definition logout (st : LocalStorage) : LocalStorage :=
  mkStorage (bayan_users st) None.

(** [users.find(u => u.id === id)] *)
Definition findById (uid : string) (users : list User) : option User :=
  snd <$> list_find (λ u, id u = uid) users.

(** [if (!id) return null] holds for a missing item and for the empty
    string. *)
Definition getCurrentUser (st : LocalStorage) : option User :=
  match bayan_current_user_id st with
  | None => None
  | Some uid => if String.eqb uid "" then None else findById uid (getUsers st)
  end.

(** A [Partial<UserPreferences>]: each property is present or not. *)
Record PartialPreferences : Type := mkPartial {
  newScheme : option TransliterationScheme;
  newLiteral : option bool
}.

(** [{ ...old, ...prefs }] *)
Definition mergePreferences (old : UserPreferences) (prefs : PartialPreferences)
  : UserPreferences :=
  mkPreferences
    (match newScheme prefs with
     | Some x => x
     | None => transliterationScheme old
     end)
    (match newLiteral prefs with
     | Some b => b
     | None => includeLiteralTranslation old
     end).

Definition withPreferences (p : UserPreferences) (u : User) : User :=
  mkUser (id u) (username u) (email u) p.

Definition updatePreferences (userId : string) (prefs : PartialPreferences)
    (st : LocalStorage) : LocalStorage * option User :=
  let users := getUsers st in
  match list_find (λ u, id u = userId) users with
  | Some (index, u) =>
      let u' := withPreferences (mergePreferences (preferences u) prefs) u in
      (setUsers (<[index := u']> users) st, Some u')
  | None => (st, None)
  end.

(** The identifiers of the stored users are pairwise distinct. *)
Definition distinctIds (st : LocalStorage) : Prop :=
  NoDup (id <$> getUsers st).

End Storage.

(* ===================================================================== *)
(** * services/storage.ts: projects and the onboarding flag *)
(* ===================================================================== *)
Module Projects.

Record Project : Type := mkProject {
  id : string;
  userId : string;
  title : string;
  createdAt : Z;
  transcript : string;
  summary : option Gemini.LectureSummary
}.

(** All of [localStorage] that the application uses: the two items of the
    user functions, the item under [PROJECTS_KEY] (kept as the array its
    text parses to) and the item under [ONBOARDING_KEY]. *)
Record LocalStorage : Type := mkStorage {
  userItems : Storage.LocalStorage;
  bayan_projects : option (list Project);
  bayan_onboarding_seen : option string
}.

(** [allProjectsStr ? JSON.parse(allProjectsStr) : []] *)
Definition allProjects (st : LocalStorage) : list Project :=
  match bayan_projects st with
  | Some projects => projects
  | None => []
  end.

Definition setProjects (projects : list Project) (st : LocalStorage) : LocalStorage :=
  mkStorage (userItems st) (Some projects) (bayan_onboarding_seen st).

Definition setUserItems (u : Storage.LocalStorage) (st : LocalStorage) : LocalStorage :=
  mkStorage u (bayan_projects st) (bayan_onboarding_seen st).

(** [sort((a, b) => b.createdAt - a.createdAt)].  [Array.prototype.sort] is
    stable, and a stable sort has one result: here by insertion, a project
    going before the first project that is not newer than it. *)
Fixpoint insertNewest (p : Project) (sorted : list Project) : list Project :=
  match sorted with
  | [] => [p]
  | q :: rest =>
      if (createdAt q <=? createdAt p)%Z then p :: q :: rest
      else q :: insertNewest p rest
  end.

Definition sortNewestFirst (projects : list Project) : list Project :=
  foldr insertNewest [] projects.

Definition getProjects (uid : string) (st : LocalStorage) : list Project :=
  sortNewestFirst (filter (λ p, userId p = uid) (allProjects st)).

Definition saveProject (project : Project) (st : LocalStorage) : LocalStorage :=
  let projects := allProjects st in
  match list_find (λ p, id p = id project) projects with
  | Some (index, _) => setProjects (<[index := project]> projects) st
  | None => setProjects (projects ++ [project]) st
  end.

Definition deleteProject (projectId : string) (st : LocalStorage) : LocalStorage :=
  setProjects (filter (λ p, id p ≠ projectId) (allProjects st)) st.

(** [localStorage.getItem(ONBOARDING_KEY) === 'true'] *)
Definition getOnboardingStatus (st : LocalStorage) : bool :=
  match bayan_onboarding_seen st with
  | Some text => String.eqb text "true"
  | None => false
  end.

(** [localStorage.setItem(ONBOARDING_KEY, String(seen))] *)
Definition saveOnboardingStatus (seen : bool) (st : LocalStorage) : LocalStorage :=
  mkStorage (userItems st) (bayan_projects st)
    (Some (if seen then "true" else "false")%string).

(** Newest first. *)
Definition newerOrSame (p q : Project) : Prop := (createdAt q <= createdAt p)%Z.

End Projects.

(* ===================================================================== *)
(** * components/AuthModal.tsx: [handleSubmit] *)
(* ===================================================================== *)
Module AuthModal.

(** What the form does in the end: [onLogin(user); onClose()], or
    [setError(err.message)]. *)
Inductive Outcome : Type :=
| LoggedIn (user : Storage.User)
| ShowError (message : string).

Section WithLowerCase.
Variable toLowerCase : string → string.

(** [uuid] is what [crypto.randomUUID()] gives if [register] draws one. *)
Definition handleSubmit (isRegistering : bool) (username email uuid : string)
    (st : Storage.LocalStorage) : Storage.LocalStorage * Outcome :=
  if isRegistering then
    if (String.eqb username "" || String.eqb email "")%bool
    then (st, ShowError "Please fill in all fields")
    else
      match Storage.register toLowerCase username email uuid st with
      | (st', Returned user) => (st', LoggedIn user)
      | (st', Thrown message) => (st', ShowError message)
      end
  else
    if String.eqb username ""
    then (st, ShowError "Please enter username")
    else
      match Storage.login toLowerCase username st with
      | (st', Some user) => (st', LoggedIn user)
      | (st', None) => (st', ShowError "User not found")
      end.
End WithLowerCase.

End AuthModal.

(* ===================================================================== *)
(** * components/Dashboard.tsx: [handleDelete] *)
(* ===================================================================== *)
Module Dashboard.

(** [confirmed] is the answer to [confirm(...)]; [projects] is the state of
    the component. *)
Definition handleDelete (confirmed : bool) (projectId : string)
    (projects : list Projects.Project) (st : Projects.LocalStorage)
  : list Projects.Project * Projects.LocalStorage :=
  if confirmed then
    (filter (λ p, Projects.id p ≠ projectId) projects,
     Projects.deleteProject projectId st)
  else (projects, st).

End Dashboard.

(* ===================================================================== *)
(** * components/Summarizer.tsx: [handleSave] *)
(* ===================================================================== *)
Module Summarizer.

(** The props and state that [handleSave] reads. *)
Record SaveInput : Type := mkSaveInput {
  user : option Storage.User;
  summary : option Gemini.LectureSummary;
  inputText : string;
  currentProjectId : option string;
  projectTitle : string;
  preferences : Storage.UserPreferences
}.

Inductive SaveOutcome : Type :=
| RequireAuth
| NothingToSave
| Saved (projectId : string).

(** [a || b] on strings *)
Definition orString (a b : string) : string :=
  if String.eqb a "" then b else a.

Definition projectToSave (inp : SaveInput) (u : Storage.User)
    (sm : Gemini.LectureSummary) (uuid : string) (now : Z) : Projects.Project :=
  Projects.mkProject
    (match currentProjectId inp with
     | Some pid => orString pid uuid
     | None => uuid
     end)
    (Storage.id u)
    (orString (projectTitle inp) "Untitled Lecture")
    now
    (inputText inp)
    (Some sm).

Definition sameScheme (a b : Storage.TransliterationScheme) : bool :=
  match a, b with
  | Storage.ISO, Storage.ISO | Storage.Buckwalter, Storage.Buckwalter => true
  | _, _ => false
  end.

(** The test before [StorageService.updatePreferences]. *)
Definition preferencesChanged (a b : Storage.UserPreferences) : bool :=
  (negb (sameScheme (Storage.transliterationScheme a) (Storage.transliterationScheme b))
   || negb (Bool.eqb (Storage.includeLiteralTranslation a)
                     (Storage.includeLiteralTranslation b)))%bool.

Definition allOf (p : Storage.UserPreferences) : Storage.PartialPreferences :=
  Storage.mkPartial (Some (Storage.transliterationScheme p))
    (Some (Storage.includeLiteralTranslation p)).

(** [uuid] is [crypto.randomUUID()] and [now] is [Date.now()]. *)
Definition handleSave (inp : SaveInput) (uuid : string) (now : Z)
    (st : Projects.LocalStorage) : Projects.LocalStorage * SaveOutcome :=
  match user inp with
  | None => (st, RequireAuth)
  | Some u =>
      match summary inp with
      | None => (st, NothingToSave)
      | Some sm =>
          if String.eqb (inputText inp) "" then (st, NothingToSave)
          else
            let project := projectToSave inp u sm uuid now in
            let st1 := Projects.saveProject project st in
            let st2 :=
              if preferencesChanged (Storage.preferences u) (preferences inp)
              then Projects.setUserItems
                     (Storage.updatePreferences (Storage.id u)
                        (allOf (preferences inp)) (Projects.userItems st1)).1 st1
              else st1 in
            (st2, Saved (Projects.id project))
      end
  end.

(** The state the component is in after a save: [setCurrentProjectId]. *)
Definition afterSave (inp : SaveInput) (outcome : SaveOutcome) : SaveInput :=
  match outcome with
  | Saved pid =>
      mkSaveInput (user inp) (summary inp) (inputText inp) (Some pid)
        (projectTitle inp) (preferences inp)
  | _ => inp
  end.

End Summarizer.

(* ===================================================================== *)
(** * components/ChatInterface.tsx: [handleSend] *)
(* ===================================================================== *)
Module ChatInterface.

Inductive Role : Type := user | model.

(** [isError] is false when the property is absent. *)
Record ChatMessage : Type := mkChatMessage {
  role : Role;
  text : string;
  isError : bool
}.

Record ChatState : Type := mkChat {
  chatSession : option nat;
  messages : list ChatMessage;
  input : string;
  isSending : bool
}.

Definition greeting : ChatMessage :=
  mkChatMessage model
    "As-salamu alaykum! I am your Islamic knowledge assistant powered by Gemini 3.0 Pro. How can I help you understand a topic today?"
    false.

(** The state after the effect that runs on mount, [chat] being the session
    made by [createChatSession()]. *)
Definition mounted (chat : nat) : ChatState :=
  mkChat (Some chat) [greeting] "" false.

(** [handleSend] up to the [await]. *)
Definition handleSend_begin (st : ChatState) : ChatState :=
  if (String.eqb (Gemini.trim (input st)) "" || negb (bool_decide (is_Some (chatSession st))))%bool
  then st
  else mkChat (chatSession st)
         (messages st ++ [mkChatMessage user (input st) false]) "" true.

(** [handleSend] after the [await], when [sendMessage] resolves with
    [result.text] equal to [answer] ([None] for a missing text). *)
Definition handleSend_resolved (answer : option string) (st : ChatState) : ChatState :=
  let shown := match answer with
               | Some t => if String.eqb t "" then "I couldn't generate a response." else t
               | None => "I couldn't generate a response."
               end%string in
  mkChat (chatSession st) (messages st ++ [mkChatMessage model shown false])
    (input st) false.

(** [handleSend] after the [await], when [sendMessage] rejects. *)
Definition handleSend_rejected (st : ChatState) : ChatState :=
  mkChat (chatSession st)
    (messages st
     ++ [mkChatMessage model "I encountered an error processing your request." true])
    (input st) false.

Inductive Event : Type :=
| Typed (value : string)
| Send
| Resolved (answer : option string)
| Rejected.

Definition step (st : ChatState) (e : Event) : ChatState :=
  match e with
  | Typed value => mkChat (chatSession st) (messages st) value (isSending st)
  | Send => handleSend_begin st
  | Resolved answer => handleSend_resolved answer st
  | Rejected => handleSend_rejected st
  end.

Definition run (st : ChatState) (trace : list Event) : ChatState :=
  foldl step st trace.

End ChatInterface.

(* ===================================================================== *)
(** * components/OnboardingTour.tsx *)
(* ===================================================================== *)
Module OnboardingTour.

Inductive AppMode : Type := SUMMARIZER | CHAT | LIVE | DASHBOARD.

Record Step : Type := mkStep {
  targetId : option string;
  title : string;
  content : string;
  mode : option AppMode
}.

Definition STEPS : list Step :=
  [mkStep None "Welcome to BayanAI"
     "Your intelligent companion for Islamic lectures. Let's take a quick tour to get you started."
     (Some SUMMARIZER);
   mkStep (Some "summarizer-input-container") "Add Content"
     "Start here! You can paste text, upload audio files, or provide a URL to a lecture you want to analyze."
     (Some SUMMARIZER);
   mkStep (Some "summarizer-generate-btn") "Generate Summary"
     "Click this button to let Gemini process the content. We'll create a summary, check facts, and even generate an audio version for you."
     (Some SUMMARIZER);
   mkStep (Some "nav-chat") "Scholar Chat"
     "Have questions about what you heard? Switch to the Scholar Chat to discuss the lecture topic in depth."
     (Some CHAT);
   mkStep (Some "chat-input-area") "Ask Questions"
     "Type your questions here. Our AI scholar will provide answers referenced from authentic sources."
     (Some CHAT);
   mkStep (Some "nav-dashboard") "Save Your Work"
     "Create an account to access the Dashboard, where you can save and manage all your lecture summaries."
     (Some SUMMARIZER)]%string.

(** [handleNext]: the new index, and whether [onClose] was called. *)
Definition handleNext (currentStepIndex : nat) : nat * bool :=
  if (currentStepIndex <? length STEPS - 1)%nat
  then ((currentStepIndex + 1)%nat, false)
  else (currentStepIndex, true).

Definition handlePrev (currentStepIndex : nat) : nat :=
  if (0 <? currentStepIndex)%nat then (currentStepIndex - 1)%nat else currentStepIndex.

Inductive Click : Type := Next | Prev.

Definition click (currentStepIndex : nat) (c : Click) : nat :=
  match c with
  | Next => (handleNext currentStepIndex).1
  | Prev => handlePrev currentStepIndex
  end.

(** The bounding rectangle of the target element. *)
Record Rect : Type := mkRect {
  top : Q;
  bottom : Q;
  left : Q;
  width : Q
}.

(** The position [updatePosition] computes when the target element exists:
    [(top, left)]. *)
Definition cardPosition (rect : Rect) (innerWidth innerHeight : Q) : Q * Q :=
  let cardWidth := 320%Q in
  let top0 := (bottom rect + 12)%Q in
  let left0 := (left rect + width rect / 2 - cardWidth / 2)%Q in
  let left1 := if Qlt_le_dec left0 10 then 10%Q else left0 in
  let left2 := if Qlt_le_dec innerWidth (left1 + cardWidth)
               then (innerWidth - cardWidth - 10)%Q else left1 in
  let top1 := if Qlt_le_dec innerHeight (top0 + 200)
              then (top rect - 220)%Q else top0 in
  (top1, left2).

(** [updatePosition]: [None] is [setPosition(null)], the centre of the
    screen; [getElementById] finds the element of an identifier or not. *)
Definition updatePosition (step : Step) (getElementById : string → option Rect)
    (innerWidth innerHeight : Q) : option (Q * Q) :=
  match targetId step with
  | None => None
  | Some tid =>
      if String.eqb tid "" then None
      else match getElementById tid with
           | Some rect => Some (cardPosition rect innerWidth innerHeight)
           | None => None
           end
  end.

End OnboardingTour.

(* ===================================================================== *)
(** * A list updated by key *)
(* ===================================================================== *)
Module Lists.

(** What [saveUser] and [saveProject] do to the stored array: the element
    with the key of [x] that comes first is replaced by [x]; without such an
    element [x] is pushed at the end. *)
Definition upsert {A K : Type} `{EqDecision K} (key : A → K) (x : A) (l : list A)
  : list A :=
  match list_find (λ y, key y = key x) l with
  | Some (index, _) => <[index := x]> l
  | None => l ++ [x]
  end.

(** The first element with key [k]. *)
Definition findKey {A K : Type} `{EqDecision K} (key : A → K) (k : K) (l : list A)
  : option A :=
  snd <$> list_find (λ y, key y = k) l.

End Lists.

(* ===================================================================== *)
(** * Sample data *)
(* ===================================================================== *)
Module Examples.

Definition alice : Storage.User :=
  Storage.mkUser "id1" "alice" "a@x" Storage.DEFAULT_PREFERENCES.

Definition aliceStore : Storage.LocalStorage := Storage.mkStorage (Some [alice]) None.

Definition bob : Storage.User :=
  Storage.mkUser "id2" "Bob" "b@x" Storage.DEFAULT_PREFERENCES.

Definition aliceBobStore : Storage.LocalStorage :=
  Storage.mkStorage (Some [alice; bob]) (Some "id2"%string).

Definition emptySummary : Gemini.LectureSummary :=
  Gemini.mkSummary Gemini.fallback Gemini.fallback Gemini.fallback
    (Gemini.VArray []) (Gemini.VArray []) (Gemini.VArray []).

Definition lecture1 : Projects.Project :=
  Projects.mkProject "p1" "id1" "First" 100 "text one" (Some emptySummary).

Definition lecture2 : Projects.Project :=
  Projects.mkProject "p2" "id1" "Second" 200 "text two" None.

Definition lecture3 : Projects.Project :=
  Projects.mkProject "p3" "id2" "Third" 150 "text three" None.

Definition projectStore : Projects.LocalStorage :=
  Projects.mkStorage aliceStore (Some [lecture1; lecture2; lecture3]) None.

(** The form of the summarizer, filled in by alice, who has switched the
    scheme. *)
Definition aliceForm : Summarizer.SaveInput :=
  Summarizer.mkSaveInput (Some alice) (Some emptySummary) "a lecture" None ""
    (Storage.mkPreferences Storage.Buckwalter true).

(** Three chunks of one second that arrive at 2, 2.5 and 3.9 seconds. *)
Definition firstChunk : LiveConversation.Arrival :=
  LiveConversation.mkArrival 2 1 1.


(** A chunk is scheduled, a second one fails to decode, the first ends. *)
Definition playAndEnd : list LiveConversation.Event :=
  [LiveConversation.chunkEvent firstChunk;
   LiveConversation.OnMessage 3 9
     (LiveConversation.mkMessage (Some LiveConversation.Malformed) false);
   LiveConversation.OnEnded 1].

(** A parsed response with everything the schema requires. *)
Definition completeProps : list (string * Gemini.Value) :=
  [("summary_short"%string, Gemini.VString "short");
   ("summary_medium"%string, Gemini.VString "medium");
   ("summary_long"%string, Gemini.VString "long");
   ("claims"%string, Gemini.VArray [Gemini.VObject [("id"%string, Gemini.VNumber 1)]]);
   ("transliterations"%string, Gemini.VArray [])].

Definition completeSummary : Gemini.LectureSummary :=
  Gemini.mkSummary (Gemini.VString "short") (Gemini.VString "medium")
    (Gemini.VString "long")
    (Gemini.VArray [Gemini.VObject [("id"%string, Gemini.VNumber 1)]])
    (Gemini.VArray []) (Gemini.VArray []).

Definition oneSource : list Gemini.GroundingChunk :=
  [Some (Gemini.mkWeb (Gemini.VString "title") (Gemini.VString "https://example.org"))].

End Examples.

(* ===================================================================== *)
(** * Properties of the live conversation *)
(* ===================================================================== *)
Section LiveConversationFacts.
Import LiveConversation.
Local Open Scope Q_scope.

Lemma scheduledStart_max cursor now :
  scheduledStart cursor now == Qmax now cursor.
Proof.
  unfold scheduledStart.
  destruct (Qlt_le_dec cursor now) as [Hlt | Hle];
    destruct (Q.max_spec now cursor) as [[H1 H2] | [H1 H2]]; rewrite H2; lra.
Qed.

Lemma scheduledStart_ge_clock cursor now : now <= scheduledStart cursor now.
Proof. unfold scheduledStart. destruct (Qlt_le_dec cursor now); lra. Qed.


Lemma starts_app log1 log2 : starts (log1 ++ log2) = starts log1 ++ starts log2.
Proof.
  induction log1 as [| e log1 IH]; [reflexivity |].
  destruct e; simpl; rewrite ?IH; reflexivity.
Qed.







(** ** Interruption *)

Lemma onMessage_interrupted now source msg s :
  interrupted msg = true → decodes msg →
  ∃ s' log,
    onMessage now source msg s = (s', log, Resolved)
    ∧ sourcesRef s' = []
    ∧ isAgentSpeaking s' = false
    ∧ nextStartTimeRef s' = 0
    ∧ (∀ x, x ∈ activeAtInterruption source msg s → SourceStop x ∈ log).
Proof.
  intros Hi Hd. unfold onMessage, activeAtInterruption, handleInterrupted, decodes in *.
  destruct (inlineData msg) as [[d |] |]; [| congruence |]; rewrite Hi; cbn;
    eexists _, _; (split; [reflexivity |]); repeat split; try reflexivity;
    intros x Hx; try apply list_elem_of_further; apply list_elem_of_fmap; eauto.
Qed.

(** C2, as the code has it. When [onMessage] handles a message with
    [interrupted] set (and whose audio, if any, decoded), it resolves; every
    source of the active set is stopped; the set is left empty;
    [isAgentSpeaking] is cleared; and the cursor is reset to 0, not to the
    output clock: a later chunk, arriving with the clock at some
    [now' >= 0], is then scheduled at [now']. *)
Theorem interruption_flushes_and_zeroes_cursor now source msg s :
  interrupted msg = true → decodes msg →
  let '(s', log, settled) := onMessage now source msg s in
  settled = Resolved
  ∧ (∀ x, x ∈ activeAtInterruption source msg s → SourceStop x ∈ log)
  ∧ sourcesRef s' = []
  ∧ isAgentSpeaking s' = false
  ∧ nextStartTimeRef s' = 0
  ∧ (∀ now', 0 <= now' → scheduledStart (nextStartTimeRef s') now' == now').
Proof.
  intros Hi Hd.
  destruct (onMessage_interrupted now source msg s Hi Hd)
    as (s' & log & -> & Hs & Ha & Hc & Hstop).
  repeat split; try assumption.
  intros now' Hnow. rewrite Hc, scheduledStart_max.
  destruct (Q.max_spec now' 0) as [[H1 H2] | [H1 H2]]; rewrite H2; lra.
Qed.

Lemma interruption_flushes_and_zeroes_cursor_witness :
  let '(s', log, settled) :=
    onMessage (23 # 10) 0%nat interruption speakingState in
  settled = Resolved
  ∧ (∀ x, x ∈ activeAtInterruption 0%nat interruption speakingState →
          SourceStop x ∈ log)
  ∧ sourcesRef s' = []
  ∧ isAgentSpeaking s' = false
  ∧ nextStartTimeRef s' = 0
  ∧ (∀ now', 0 <= now' → scheduledStart (nextStartTimeRef s') now' == now').
Proof.
  apply (interruption_flushes_and_zeroes_cursor (23 # 10) 0%nat interruption speakingState).
  - reflexivity.
  - unfold decodes. simpl. discriminate.
Defined.

(** C2, as the claim states it, fails: with chunk 7 scheduled to end at 3
    and an interruption handled while the output clock shows 2.3, the set is
    emptied and the flag cleared, but the cursor is 0 afterwards, not 2.3. *)
Lemma interruption_cursor_is_not_the_clock :
  let now := 23 # 10 in
  let s' := (onMessage now 0%nat interruption speakingState).1.1 in
  ¬ (sourcesRef s' = [] ∧ isAgentSpeaking s' = false ∧ nextStartTimeRef s' == now).
Proof. cbn. intros (_ & _ & H). discriminate H. Qed.

Lemma starts_stops l : starts (map SourceStop l) = [].
Proof. induction l; simpl; auto. Qed.

Lemma onMessage_starts_ge now source msg s :
  Forall (λ t, now <= t) (starts (onMessage now source msg s).1.2).
Proof.
  unfold onMessage, handleInterrupted.
  destruct (inlineData msg) as [[d |] |]; destruct (interrupted msg); cbn;
    rewrite ?starts_stops; repeat constructor; apply scheduledStart_ge_clock.
Qed.

Lemma starts_release f r :
  (∀ h x t, f h ≠ SourceStart x t) → starts (release f r) = [].
Proof.
  intros Hf. destruct r as [h |]; [| reflexivity]. simpl.
  specialize (Hf h). destruct (f h) as [| | | | | | | | | | | x t | |];
    try reflexivity. destruct (Hf x t). reflexivity.
Qed.

Lemma stopEverything_starts s : starts (stopEverything s).2 = [].
Proof.
  unfold stopEverything. cbn [snd].
  rewrite !starts_app, starts_stops, !starts_release by discriminate. reflexivity.
Qed.

Lemma step_starts_ge T s e :
  clockFrom T e → Forall (λ t, T <= t) (starts (step s e).2).
Proof.
  destruct e; intros He; cbn [step];
    try (rewrite stopEverything_starts; constructor).
  - destruct (isConnected s); [rewrite stopEverything_starts |]; constructor.
  - constructor.
  - constructor.
  - unfold onOpen. cbn. destruct (audioContextRef s); constructor.
  - unfold onaudioprocess. cbn [snd]. rewrite starts_release by discriminate. constructor.
  - cbn in He. eapply Forall_impl; [apply onMessage_starts_ge |].
    cbn. intros t Ht. lra.
  - constructor.
Qed.

Lemma run_starts_ge T trace : ∀ s,
  Forall (clockFrom T) trace → Forall (λ t, T <= t) (starts (run s trace).2).
Proof.
  induction trace as [| e trace IH]; intros s Htr; [constructor |].
  inversion Htr as [| ? ? He Htr']; subst. cbn [run].
  pose proof (step_starts_ge T s e He) as H1.
  destruct (step s e) as [s1 out1]. specialize (IH s1 Htr').
  destruct (run s1 trace) as [s2 out2]. cbn [snd] in *.
  rewrite starts_app. apply Forall_app. split; assumption.
Qed.

(** C6. Once [onMessage] has handled an interruption while the output clock
    showed [tInt], every start scheduled afterwards, by events that read the
    (monotonic) clock at [tInt] or later, is at least [tInt]; and the first
    chunk to arrive next, with the clock at [tB >= tInt], is scheduled at
    [tB] itself, whatever the cursor was before the interruption. *)
Theorem starts_after_interruption tInt source msg s trace :
  interrupted msg = true → decodes msg → 0 <= tInt →
  Forall (clockFrom tInt) trace →
  let s1 := (onMessage tInt source msg s).1.1 in
  Forall (λ t, tInt <= t) (starts (run s1 trace).2)
  ∧ (∀ tB nodeB dB, tInt <= tB →
       ∃ t, starts (step s1 (chunkEvent (mkArrival tB nodeB dB))).2 = [t] ∧ t == tB).
Proof.
  intros Hi Hd H0 Htr s1. split; [apply run_starts_ge, Htr |].
  intros tB nodeB dB HtB.
  destruct (onMessage_interrupted tInt source msg s Hi Hd)
    as (s' & log & Heq & _ & _ & Hc & _).
  subst s1. rewrite Heq. cbn [fst].
  unfold chunkEvent. cbn [step onMessage inlineData clock node duration].
  unfold handleInterrupted. cbn. eexists. split; [reflexivity |].
  rewrite Hc, scheduledStart_max.
  destruct (Q.max_spec tB 0) as [[H1 H2] | [H1 H2]]; rewrite H2; lra.
Qed.

Lemma starts_after_interruption_witness :
  let s1 := (onMessage (23 # 10) 0%nat interruption speakingState).1.1 in
  Forall (λ t, 23 # 10 <= t)
    (starts (run s1 [chunkEvent (mkArrival (23 # 10) 8 1)]).2)
  ∧ (∀ tB nodeB dB, 23 # 10 <= tB →
       ∃ t, starts (step s1 (chunkEvent (mkArrival tB nodeB dB))).2 = [t] ∧ t == tB).
Proof.
  apply (starts_after_interruption (23 # 10) 0%nat interruption speakingState
           [chunkEvent (mkArrival (23 # 10) 8 1)]).
  - reflexivity.
  - unfold decodes. simpl. discriminate.
  - lra.
  - repeat constructor. simpl. lra.
Defined.

(** The scenario of the specification: chunk A, one second long, is
    scheduled at [t0]; an interruption is handled at [t0 + 0.3]; chunk B,
    arriving at [tB >= t0 + 0.3], starts at [tB], so at [t0 + 0.3] when it
    arrives at once, and not at [t0 + 1]. *)
Lemma barge_in_scenario t0 tB nodeA nodeB dB :
  0 <= t0 → t0 + (3 # 10) <= tB →
  ∃ a b,
    starts (run initial
              [chunkEvent (mkArrival t0 nodeA 1);
               OnMessage (t0 + (3 # 10)) 0%nat interruption;
               chunkEvent (mkArrival tB nodeB dB)]).2 = [a; b]
    ∧ a == t0 ∧ b == tB.
Proof.
  intros H0 HB. cbn. eexists _, _. split; [reflexivity |].
  unfold scheduledStart. split.
  - destruct (Qlt_le_dec 0 t0); lra.
  - destruct (Qlt_le_dec 0 tB); lra.
Qed.

(** ** A chunk that fails to decode *)

Lemma onMessage_malformed now source flag s :
  onMessage now source (mkMessage (Some Malformed) flag) s
  = (setIsAgentSpeaking true s, [], Rejected).
Proof. reflexivity. Qed.

(** C5. When the audio of a message fails to decode, the promise of
    [onMessage] is rejected, nothing is scheduled or stopped, and the cursor
    and the set of sources are as before; but [isAgentSpeaking] has been set
    to true before the decoding and stays so: from the initial state, where
    it is false, it is true afterwards. *)
Theorem decode_failure_leaves_agent_speaking :
  (∀ now source flag s,
     let '(s', log, settled) := onMessage now source (mkMessage (Some Malformed) flag) s in
     settled = Rejected
     ∧ log = []
     ∧ nextStartTimeRef s' = nextStartTimeRef s
     ∧ sourcesRef s' = sourcesRef s
     ∧ isAgentSpeaking s' = true)
  ∧ isAgentSpeaking initial = false
  ∧ isAgentSpeaking (onMessage 1 0%nat (mkMessage (Some Malformed) false) initial).1.1 = true.
Proof.
  split; [| split; reflexivity].
  intros now source flag s. rewrite onMessage_malformed. repeat split.
Qed.

(** ** The flag [isAgentSpeaking] and the set of sources *)

Lemma set_add_nonempty x l : set_add x l ≠ [].
Proof.
  unfold set_add. case_bool_decide as Hx.
  - intros ->. inversion Hx.
  - destruct l; discriminate.
Qed.

Lemma step_agentFlagMatches s e :
  decodesEvent e → agentFlagMatches s → agentFlagMatches (step s e).1.
Proof.
  unfold agentFlagMatches. intros He Hs.
  destruct e; cbn [step]; try (cbn; split; [discriminate | congruence]).
  - destruct (isConnected s); cbn; [split; [discriminate | congruence] | exact Hs].
  - exact Hs.
  - exact Hs.
  - unfold onOpen. cbn. destruct (audioContextRef s); exact Hs.
  - exact Hs.
  - cbn in He. unfold decodes in He. unfold onMessage, handleInterrupted.
    destruct (inlineData msg) as [[d |] |]; [| congruence |];
      destruct (interrupted msg); cbn;
      try (split; [discriminate | congruence]); try exact Hs.
    split; [intros _; apply set_add_nonempty | reflexivity].
  - unfold onended. cbn [fst setSources sourcesRef].
    destruct (decide _) as [Hl | Hl]; cbn.
    + apply length_zero_iff_nil in Hl. rewrite Hl. split; [discriminate | congruence].
    + split.
      * intros _ Hnil. rewrite Hnil in Hl. apply Hl. reflexivity.
      * intros Hne. apply Hs. intros Hnil. rewrite Hnil in Hne. apply Hne. reflexivity.
Qed.

(** As long as every chunk decodes, the flag and the set agree after each
    event, a message being handled in one piece as [step] has it. *)
Lemma agent_flag_matches_while_chunks_decode trace : ∀ s,
  Forall decodesEvent trace → agentFlagMatches s → agentFlagMatches (run s trace).1.
Proof.
  induction trace as [| e trace IH]; intros s Htr Hs; [exact Hs |].
  inversion Htr as [| ? ? He Htr']; subst. cbn [run].
  pose proof (step_agentFlagMatches s e He Hs) as H1.
  destruct (step s e) as [s1 out1]. specialize (IH s1 Htr' H1).
  destruct (run s1 trace) as [s2 out2]. exact IH.
Qed.

(** C7. A chunk that fails to decode breaks the agreement: from the initial
    state, in which the flag is false and the set empty, the flag is true
    afterwards and the set is still empty. *)
Theorem decode_failure_breaks_agent_flag :
  let s := (run initial [OnMessage 1 0%nat (mkMessage (Some Malformed) false)]).1 in
  agentFlagMatches initial
  ∧ isAgentSpeaking s = true
  ∧ sourcesRef s = []
  ∧ ¬ agentFlagMatches s.
Proof.
  cbn. unfold agentFlagMatches. cbn. repeat split; try discriminate; try congruence.
  intros [H _]. apply H; reflexivity.
Qed.

(** ** The speech-activity signal *)

Lemma roundDouble_exact M j :
  (0 <= M < 2 ^ 53 → 0 <= j → roundDouble (M * 2 ^ j) = M * 2 ^ j)%Z.
Proof.
  intros HM Hj. unfold roundDouble.
  assert (Hpow : (0 < 2 ^ j)%Z) by (apply Z.pow_pos_nonneg; lia).
  assert (HN : (0 <= M * 2 ^ j)%Z) by nia.
  rewrite (Z.abs_eq _ HN).
  destruct (Z.ltb_spec (M * 2 ^ j) (2 ^ 53)) as [Hlt | Hge]; [reflexivity |].
  set (N := (M * 2 ^ j)%Z) in *.
  assert (HNpos : (0 < N)%Z)
    by (assert (0 < 2 ^ 53)%Z by (apply Z.pow_pos_nonneg; lia); lia).
  assert (Hb1 : (53 <= Z.log2 N)%Z) by (apply Z.log2_le_pow2; [lia | exact Hge]).
  assert (Hb2 : (Z.log2 N < 53 + j)%Z).
  { apply Z.log2_lt_pow2; [lia |]. rewrite Z.pow_add_r by lia. subst N. nia. }
  set (s := (Z.log2 N - 52)%Z) in *.
  assert (Hs : (1 <= s <= j)%Z) by lia.
  assert (Hsplit : N = (M * 2 ^ (j - s) * 2 ^ s)%Z).
  { subst N. rewrite <- Z.mul_assoc, <- Z.pow_add_r by lia. f_equal. f_equal. lia. }
  assert (Hps : (0 < 2 ^ s)%Z) by (apply Z.pow_pos_nonneg; lia).
  assert (Hr : (N mod 2 ^ s = 0)%Z) by (rewrite Hsplit; apply Z.mod_mul; lia).
  assert (Hq : (N / 2 ^ s = M * 2 ^ (j - s))%Z) by (rewrite Hsplit; apply Z.div_mul; lia).
  assert (Hhalf : (0 < 2 ^ (s - 1))%Z) by (apply Z.pow_pos_nonneg; lia).
  rewrite Hr, Hq. destruct (Z.ltb_spec 0 (2 ^ (s - 1))); [| lia].
  rewrite (Z.sgn_pos _ HNpos). lia.
Qed.

Lemma fold_volume_const a m j l : ∀ k,
  (0 <= m < 2 ^ 24)%Z → (0 <= j)%Z → a = (m * 2 ^ j)%Z →
  (0 <= k)%Z → (k + Z.of_nat (length l) <= 2 ^ 29)%Z →
  Forall (λ x, Z.abs x = a) l →
  fold_left (λ u b, roundDouble (u + Z.abs b)%Z) l (k * a)%Z
  = ((k + Z.of_nat (length l)) * a)%Z.
Proof.
  induction l as [| x l IH]; intros k Hm Hj Ha Hk Hlen Hl.
  - cbn. f_equal. lia.
  - inversion Hl as [| ? ? Hx Hl']; subst. cbn [length] in Hlen.
    rewrite Nat2Z.inj_succ in Hlen. cbn [fold_left length]. rewrite Nat2Z.inj_succ.
    rewrite Hx.
    replace (k * (m * 2 ^ j) + m * 2 ^ j)%Z with ((k + 1) * m * 2 ^ j)%Z by lia.
    rewrite roundDouble_exact; [| | lia].
    + rewrite <- Z.mul_assoc. rewrite (IH (k + 1)%Z); try assumption; try reflexivity; lia.
    + assert (k + 1 <= 2 ^ 29)%Z by lia.
      change (2 ^ 53)%Z with (2 ^ 29 * 2 ^ 24)%Z. nia.
Qed.

Lemma sumAbs_const a l :
  Forall (λ x, Z.abs x = a) l → sumAbs l = (Z.of_nat (length l) * a)%Z.
Proof.
  induction 1 as [| x l Hx _ IH]; [reflexivity |].
  cbn [sumAbs foldr length]. fold (sumAbs l). rewrite IH, Hx, Nat2Z.inj_succ. lia.
Qed.

(** On a frame whose samples all have the absolute value [a], no addition
    rounds: the sum is 4096 times [a]. *)
Lemma volume_const a l :
  length l = frameSize → isFloat32 a →
  Forall (λ x, Z.abs x = a) l →
  volume l = (4096 * Z.abs a)%Z ∧ sumAbs l = (4096 * Z.abs a)%Z.
Proof.
  intros Hlen (m & j & Hm & Hj & Ha) Hl.
  assert (Habs : Z.abs a = a).
  { destruct l as [| x l]; [discriminate |]. inversion Hl as [| ? ? Hx _]; subst. lia. }
  rewrite Habs in *. split.
  - unfold volume. change 0%Z with (0 * a)%Z at 1.
    assert (Hbound : (0 + Z.of_nat (length l) <= 2 ^ 29)%Z)
      by (rewrite Hlen; vm_compute; discriminate).
    rewrite (fold_volume_const a m j l 0%Z (proj1 (conj Hm I)) (proj1 Hj) Ha
               (Z.le_refl 0) Hbound Hl).
    rewrite Hlen. reflexivity.
  - rewrite (sumAbs_const a l Hl), Hlen. reflexivity.
Qed.

Lemma threshold_below_mean l :
  length l = frameSize →
  (activityThreshold < meanAmplitude l)%Q ↔ (10 * unit < sumAbs l)%Z.
Proof.
  intros Hlen. unfold activityThreshold, meanAmplitude, Qlt. cbn [Qnum Qden].
  rewrite Hlen. change (Z.of_nat frameSize) with 4096%Z.
  rewrite Z2Pos.id by reflexivity. lia.
Qed.

(** C8, as the code has it. For a capture frame (4096 Float32 samples) the
    handler sets [isSpeaking] to the test [sum > 10], the sum being the
    running double sum of the absolute values.  A frame of zeros gives
    false.  A frame whose samples all have the same absolute value gives
    true exactly when its mean absolute amplitude, which is that value,
    exceeds 10/4096. *)
Theorem user_speaking_on_zero_and_constant_frames (inputData : list Sample)
    (s : LiveState) :
  length inputData = frameSize →
  Forall isFloat32 inputData →
  isSpeaking (onaudioprocess inputData s).1 = (10 * unit <? volume inputData)%Z
  ∧ (Forall (λ x, x = 0%Z) inputData → isSpeaking (onaudioprocess inputData s).1 = false)
  ∧ (∀ a, Forall (λ x, Z.abs x = a) inputData →
       (meanAmplitude inputData == a # Z.to_pos unit)%Q
       ∧ (isSpeaking (onaudioprocess inputData s).1 = true
          ↔ (activityThreshold < meanAmplitude inputData)%Q)).
Proof.
  intros Hlen Hf. cbn [onaudioprocess fst setIsSpeaking isSpeaking]. unfold userSpeaking.
  split; [reflexivity |]. split.
  - intros Hz.
    assert (Hc : Forall (λ x, Z.abs x = 0%Z) inputData)
      by (eapply Forall_impl; [exact Hz |]; cbn; intros x ->; reflexivity).
    assert (H0 : isFloat32 0%Z) by (exists 0%Z, 0%Z; cbn; lia).
    destruct (volume_const 0%Z inputData Hlen H0 Hc) as [-> _]. reflexivity.
  - intros a Ha.
    assert (Hfa : isFloat32 a).
    { destruct inputData as [| x l]; [discriminate |].
      inversion Ha as [| ? ? Hx _]; inversion Hf as [| ? ? (m & j & Hm & Hj & Hxa) _]; subst.
      exists m, j. rewrite Z.abs_idemp. auto. }
    assert (Habs : Z.abs a = a).
    { destruct inputData as [| x l]; [discriminate |].
      inversion Ha as [| ? ? Hx _]; subst. lia. }
    destruct (volume_const a inputData Hlen Hfa Ha) as [Hv Hs]. rewrite Habs in Hv, Hs.
    split.
    + unfold meanAmplitude, Qeq. cbn [Qnum Qden]. rewrite Hs, Hlen.
      change (Z.of_nat frameSize) with 4096%Z.
      rewrite !Z2Pos.id by reflexivity. lia.
    + rewrite (threshold_below_mean inputData Hlen), Hs, Hv. apply Z.ltb_lt.
Qed.

Lemma steadyFrame_float32 : Forall isFloat32 steadyFrame.
Proof.
  apply Forall_replicate. exists 10737418%Z, 119%Z. repeat split; try lia; reflexivity.
Qed.

Lemma user_speaking_on_zero_and_constant_frames_witness :
  isSpeaking (onaudioprocess steadyFrame initial).1 = true
  ↔ (activityThreshold < meanAmplitude steadyFrame)%Q.
Proof.
  destruct (user_speaking_on_zero_and_constant_frames steadyFrame initial eq_refl
              steadyFrame_float32) as (_ & _ & H).
  apply (H (10737418 * 2 ^ 119)%Z). apply Forall_replicate. reflexivity.
Defined.

(** C8, as the claim states it, fails: [isSpeaking] is not a threshold on
    the mean.  In [quietFrame] every addition after the tenth rounds back to
    10, so the sum is 10 and the handler sets false; in [loudFrame] the
    eleventh addition rounds up, and the handler sets true; yet the mean of
    [quietFrame] is the larger one.  So no threshold at all fits. *)
Lemma speaking_is_not_a_threshold_on_the_mean :
  length quietFrame = frameSize ∧ length loudFrame = frameSize
  ∧ Forall isFloat32 quietFrame ∧ Forall isFloat32 loudFrame
  ∧ (meanAmplitude loudFrame < meanAmplitude quietFrame)%Q
  ∧ isSpeaking (onaudioprocess quietFrame initial).1 = false
  ∧ isSpeaking (onaudioprocess loudFrame initial).1 = true
  ∧ ¬ (∃ threshold : Q, ∀ frame,
         length frame = frameSize → Forall isFloat32 frame →
         (isSpeaking (onaudioprocess frame initial).1 = true
          ↔ (threshold < meanAmplitude frame)%Q)).
Proof.
  assert (Hq : Forall isFloat32 quietFrame).
  { apply Forall_app. split; apply Forall_replicate.
    - exists 1%Z, 149%Z. repeat split; try lia.
    - exists 1%Z, 98%Z. repeat split; try lia. }
  assert (Hl : Forall isFloat32 loudFrame).
  { apply Forall_app. split; [| apply Forall_cons; split]; try apply Forall_replicate.
    - exists 1%Z, 149%Z. repeat split; try lia.
    - exists (2 ^ 23 + 1)%Z, 76%Z. repeat split; try lia; reflexivity.
    - exists 0%Z, 0%Z. repeat split; try lia. }
  assert (Hmean : (meanAmplitude loudFrame < meanAmplitude quietFrame)%Q)
    by (vm_compute; reflexivity).
  assert (Hquiet : isSpeaking (onaudioprocess quietFrame initial).1 = false)
    by (vm_compute; reflexivity).
  assert (Hloud : isSpeaking (onaudioprocess loudFrame initial).1 = true)
    by (vm_compute; reflexivity).
  repeat split; try assumption.
  intros (th & Hth).
  pose proof (proj1 (Hth loudFrame eq_refl Hl) Hloud) as H1.
  assert (H2 : (th < meanAmplitude quietFrame)%Q) by (eapply Qlt_trans; eassumption).
  apply (Hth quietFrame eq_refl Hq) in H2. congruence.
Qed.

(** ** Start and stop *)

Lemma release_Forall (P : Effect → Prop) f r :
  (∀ h, P (f h)) → Forall P (release f r).
Proof. intros Hf. destruct r; repeat constructor. apply Hf. Qed.

Lemma stopEverything_Forall (P : Effect → Prop) s :
  (∀ h, P (TrackStop h)) → (∀ h, P (NodeDisconnect h)) →
  (∀ h, P (ContextClose h)) → (∀ x, P (SourceStop x)) →
  Forall P (stopEverything s).2.
Proof.
  intros Ht Hn Hc Hs. unfold stopEverything. cbn [snd].
  repeat (apply Forall_app; split); try (apply release_Forall; assumption).
  apply Forall_fmap, Forall_forall. intros x _. apply Hs.
Qed.

Lemma onMessage_Forall (P : Effect → Prop) now source msg s :
  (∀ x t, P (SourceStart x t)) → (∀ x, P (SourceStop x)) →
  Forall P (onMessage now source msg s).1.2.
Proof.
  intros Hstart Hstop. unfold onMessage, handleInterrupted.
  destruct (inlineData msg) as [[d |] |]; destruct (interrupted msg); cbn;
    repeat constructor; try apply Hstart;
    apply Forall_fmap, Forall_forall; intros x _; apply Hstop.
Qed.

Lemma step_graphless s e :
  notOpen e → graphless s →
  graphless (step s e).1 ∧ Forall (λ x, ¬ buildsGraph x) (step s e).2.
Proof.
  unfold graphless. intros He (Hs & Hp & Hc).
  destruct e; cbn [step notOpen] in *; try contradiction; rewrite ?Hc.
  - cbn. repeat split; auto; repeat constructor; auto.
  - cbn. repeat split; auto; repeat constructor; auto.
  - cbn. repeat split; auto; repeat constructor; auto.
  - cbn. repeat split; auto. apply release_Forall. auto.
  - split; [| apply onMessage_Forall; auto].
    unfold onMessage, handleInterrupted.
    destruct (inlineData msg) as [[d |] |]; destruct (interrupted msg); cbn; auto.
  - unfold onended. cbn. destruct (decide _); cbn; repeat split; auto.
  - split; [cbn; auto | apply stopEverything_Forall; auto].
  - split; [cbn; auto | apply stopEverything_Forall; auto].
  - split; [cbn; auto | apply stopEverything_Forall; auto].
Qed.

Lemma run_graphless trace : ∀ s,
  Forall notOpen trace → graphless s →
  graphless (run s trace).1 ∧ Forall (λ x, ¬ buildsGraph x) (run s trace).2.
Proof.
  induction trace as [| e trace IH]; intros s Htr Hs; [split; [exact Hs | constructor] |].
  inversion Htr as [| ? ? He Htr']; subst. cbn [run].
  destruct (step_graphless s e He Hs) as [H1 H2].
  destruct (step s e) as [s1 out1]. destruct (IH s1 Htr' H1) as [H3 H4].
  destruct (run s1 trace) as [s2 out2]. cbn [fst snd] in *.
  split; [exact H3 | apply Forall_app; split; assumption].
Qed.

(** C3, as the code has it. [startSession] asks for the microphone before
    it connects the session, so a capture device can be held before [onOpen]
    runs; what waits for [onOpen] is the capture graph: as long as [onOpen]
    has not run, the component has no media-stream source and no script
    processor, is not marked connected, and has asked for no node of the
    graph.  Stopping then stops the tracks of the stream held at that
    moment and clears its reference. *)
Theorem capture_graph_waits_for_open trace :
  Forall notOpen trace →
  let s := (run initial trace).1 in
  sourceRef s = None ∧ processorRef s = None ∧ isConnected s = false
  ∧ Forall (λ x, ¬ buildsGraph x) (run initial trace).2
  ∧ mediaStreamRef (stopEverything s).1 = None
  ∧ (∀ h, mediaStreamRef s = Some h → TrackStop h ∈ (stopEverything s).2).
Proof.
  intros Htr s.
  destruct (run_graphless trace initial Htr) as [(H1 & H2 & H3) H4];
    [repeat split |].
  repeat split; try assumption.
  intros h Hh. unfold stopEverything. cbn [snd]. rewrite Hh. cbn. apply list_elem_of_here.
Qed.

Lemma capture_graph_waits_for_open_witness :
  let s := (run initial startGranted).1 in
  sourceRef s = None ∧ processorRef s = None ∧ isConnected s = false
  ∧ Forall (λ x, ¬ buildsGraph x) (run initial startGranted).2
  ∧ mediaStreamRef (stopEverything s).1 = None
  ∧ (∀ h, mediaStreamRef s = Some h → TrackStop h ∈ (stopEverything s).2).
Proof.
  apply (capture_graph_waits_for_open startGranted).
  repeat constructor.
Defined.

(** C3, as the claim states it, fails: after the click and the grant of the
    microphone, [onOpen] has not run, yet the component holds the stream;
    the request for the microphone even comes first in the log, before the
    connection of the session. *)
Lemma capture_device_held_before_open :
  Forall notOpen startGranted
  ∧ (run initial startGranted).2
    = [NewAudioContext 1%nat 16000%Z; NewAudioContext 2%nat 24000%Z; GetUserMedia;
       LiveConnect 4%nat]
  ∧ ¬ (mediaStreamRef (run initial startGranted).1 = None).
Proof. split; [repeat constructor |]. split; [reflexivity | discriminate]. Qed.

(** C4, as the code has it. [stopEverything] always returns; a second call
    changes nothing and asks for nothing; after it the stream, processor,
    source and input-context references are null, the three flags are
    false, the cursor is 0 and the set of sources is empty; whatever those
    references and the set held has been stopped, disconnected or closed.
    The session reference is left as it was, the session is not asked to
    close, and no context other than the one of [audioContextRef] is
    closed. *)
Theorem stopEverything_releases_capture_and_playback s :
  let '(s1, log) := stopEverything s in
  stopEverything s1 = (s1, [])
  ∧ s1 = mkLive false false false None None None None (sessionRef s) 0 []
  ∧ (∀ h, mediaStreamRef s = Some h → TrackStop h ∈ log)
  ∧ (∀ h, processorRef s = Some h → NodeDisconnect h ∈ log)
  ∧ (∀ h, sourceRef s = Some h → NodeDisconnect h ∈ log)
  ∧ (∀ h, audioContextRef s = Some h → ContextClose h ∈ log)
  ∧ (∀ x, x ∈ sourcesRef s → SourceStop x ∈ log)
  ∧ (∀ h, SessionClose h ∉ log)
  ∧ (∀ c, ContextClose c ∈ log → audioContextRef s = Some c).
Proof.
  cbn. split; [reflexivity |]. split; [reflexivity |].
  repeat split.
  - intros h ->. cbn. apply list_elem_of_here.
  - intros h ->. rewrite !elem_of_app. right. left. apply list_elem_of_here.
  - intros h ->. rewrite !elem_of_app. right. right. left. apply list_elem_of_here.
  - intros h ->. rewrite !elem_of_app. right. right. right. left. apply list_elem_of_here.
  - intros x Hx. rewrite !elem_of_app. right. right. right. right.
    apply list_elem_of_fmap. eauto.
  - intros h H.
    assert (HF : Forall (λ e, e ≠ SessionClose h) (stopEverything s).2)
      by (apply stopEverything_Forall; discriminate).
    rewrite Forall_forall in HF. exact (HF _ H eq_refl).
  - intros c H. rewrite !elem_of_app in H.
    destruct H as [H | [H | [H | [H | H]]]].
    + destruct (mediaStreamRef s); cbn in H;
        [apply list_elem_of_singleton in H; discriminate | inversion H].
    + destruct (processorRef s); cbn in H;
        [apply list_elem_of_singleton in H; discriminate | inversion H].
    + destruct (sourceRef s); cbn in H;
        [apply list_elem_of_singleton in H; discriminate | inversion H].
    + destruct (audioContextRef s); cbn in H;
        [apply list_elem_of_singleton in H; congruence | inversion H].
    + apply list_elem_of_fmap in H as (x & Hx & _). discriminate.
Qed.

(** C4, as the claim states it, fails: a session is started, opened and
    stopped; session 4 was connected and output context 2 was created, and
    after the stop neither has the session been asked to close nor has that
    context been closed, and the session reference is still held. *)
Lemma stop_leaves_session_and_output_context :
  let '(s, log) := run initial startOpenStop in
  LiveConnect 4%nat ∈ log ∧ NewAudioContext 2%nat 24000%Z ∈ log
  ∧ sessionRef s = Some 4%nat
  ∧ ¬ (SessionClose 4%nat ∈ log) ∧ ¬ (ContextClose 2%nat ∈ log).
Proof.
  cbn. repeat split.
  - rewrite !elem_of_cons. auto.
  - rewrite !elem_of_cons. auto.
  - intros H. repeat (apply elem_of_cons in H as [H | H]; [discriminate H |]).
    inversion H.
  - intros H. repeat (apply elem_of_cons in H as [H | H]; [discriminate H |]).
    inversion H.
Qed.

End LiveConversationFacts.

(* ===================================================================== *)
(** * Properties of [summarizeLecture] *)
(* ===================================================================== *)
Section GeminiFacts.
Import Gemini.

Lemma arrayOrEmpty_isArray v : isArray (arrayOrEmpty v) = true.
Proof. unfold arrayOrEmpty. destruct (isArray v) eqn:E; [exact E | reflexivity]. Qed.

Lemma orElse_fallback_truthy v : truthy (orElse v fallback) = true.
Proof. unfold orElse. destruct (truthy v) eqn:E; [exact E | reflexivity]. Qed.

Lemma attachSources_fields gc s s' :
  attachSources gc s = Returned s' →
  summary_short s' = summary_short s
  ∧ summary_medium s' = summary_medium s
  ∧ summary_long s' = summary_long s
  ∧ transliterations s' = transliterations s
  ∧ warnings s' = warnings s
  ∧ (isArray (claims s) = true → isArray (claims s') = true).
Proof.
  unfold attachSources. intros H.
  destruct gc as [chunks |]; [| injection H as <-; auto 10].
  destruct (claims s) as [| | | | | [| first rest] |] eqn:Ec;
    try (injection H as <-; rewrite ?Ec; auto 10).
  destruct (groundingSources chunks) as [| src srcs];
    [injection H as <-; rewrite ?Ec; auto 10 |].
  destruct (truthy first); [| injection H as <-; rewrite ?Ec; auto 10].
  destruct (setProperty first "sources" (VArray (src :: srcs))) as [first' | m];
    cbn in H; [| discriminate].
  injection H as <-. cbn. auto 10.
Qed.

(** What the validation does give: whenever [summarizeLecture] returns, the
    three lists are arrays and the three summaries are truthy values. *)
Lemma returned_summary_shape outcome gc s :
  summaryOfParsed outcome gc = Returned s →
  isArray (claims s) = true
  ∧ isArray (transliterations s) = true
  ∧ isArray (warnings s) = true
  ∧ truthy (summary_short s) = true
  ∧ truthy (summary_medium s) = true
  ∧ truthy (summary_long s) = true.
Proof.
  unfold summaryOfParsed. intros H.
  destruct (buildSummary _) as [s0 | m] eqn:Eb; cbn in H; [| discriminate].
  assert (Hs0 : isArray (claims s0) = true
                ∧ isArray (transliterations s0) = true
                ∧ isArray (warnings s0) = true
                ∧ truthy (summary_short s0) = true
                ∧ truthy (summary_medium s0) = true
                ∧ truthy (summary_long s0) = true).
  { unfold buildSummary in Eb.
    destruct (match outcome with Some v => v | None => VObject [] end);
      cbn in Eb; try discriminate; injection Eb as <-; cbn;
      rewrite ?arrayOrEmpty_isArray, ?orElse_fallback_truthy; auto 10. }
  destruct (attachSources_fields gc s0 s H) as (-> & -> & -> & -> & -> & Hc).
  destruct Hs0 as (H1 & H2 & H3 & H4 & H5 & H6). auto 10.
Qed.

(** A response that is not JSON at all is caught: the summaries fall back
    to the fixed text and the lists are empty. *)
Lemma parse_failure_gives_fallback gc :
  summaryOfParsed None gc
  = Returned (mkSummary fallback fallback fallback (VArray []) (VArray []) (VArray [])).
Proof. destruct gc; reflexivity. Qed.

(** A summary of the wrong type is kept as it is. *)
Lemma number_summary_is_kept :
  summaryOfParsed (Some (VObject [("summary_short"%string, VNumber 5)])) None
  = Returned (mkSummary (VNumber 5) fallback fallback (VArray []) (VArray []) (VArray [])).
Proof. reflexivity. Qed.

(** C9. The response text [null] is valid JSON, so [JSON.parse] returns
    [null] without throwing; reading [parsed.summary_short] then throws a
    [TypeError], and [summarizeLecture] returns no summary at all. *)
Theorem null_response_throws (JSON_parse : string → option Value) gc :
  JSON_parse "null" = Some VNull →
  summarizeLecture JSON_parse (Some "null"%string) gc = Thrown "TypeError".
Proof.
  intros Hparse. unfold summarizeLecture.
  change (jsonStr (Some "null"%string)) with "null"%string.
  rewrite Hparse. reflexivity.
Qed.

Lemma null_response_throws_witness :
  summarizeLecture parseLiteral (Some "null"%string) None = Thrown "TypeError".
Proof. apply (null_response_throws parseLiteral None). reflexivity. Defined.

End GeminiFacts.

(* ===================================================================== *)
(** * Properties of the user store *)
(* ===================================================================== *)
Section StorageFacts.
Import Storage.
Variable toLowerCase : string → string.

Lemma findByName_Some name users u :
  findByName toLowerCase name users = Some u →
  u ∈ users ∧ toLowerCase (username u) = toLowerCase name.
Proof.
  unfold findByName. intros H.
  destruct (list_find _ users) as [[i v] |] eqn:E; [| discriminate].
  injection H as ->. apply list_find_Some in E as (Hi & Hp & _).
  split; [eapply list_elem_of_lookup_2; eassumption | exact Hp].
Qed.

Lemma findByName_None name users :
  findByName toLowerCase name users = None →
  ∀ u, u ∈ users → toLowerCase (username u) ≠ toLowerCase name.
Proof.
  unfold findByName. intros H u Hu.
  destruct (list_find _ users) as [[i v] |] eqn:E; [discriminate |].
  apply list_find_None in E. rewrite Forall_forall in E. exact (E u Hu).
Qed.

Lemma saveUser_fresh user st :
  id user ∉ id <$> getUsers st →
  saveUser user st = setUsers (getUsers st ++ [user]) st.
Proof.
  intros Hfresh. unfold saveUser.
  destruct (list_find _ (getUsers st)) as [[i v] |] eqn:E; [| reflexivity].
  apply list_find_Some in E as (Hi & Hp & _). destruct Hfresh.
  rewrite <- Hp. apply list_elem_of_fmap. exists v.
  split; [reflexivity | eapply list_elem_of_lookup_2; eassumption].
Qed.

(** C10, as the code has it. The store holds the array [users] (none when
    the item is missing).  [register] throws, and then with the message
    'Username already exists' and without touching the store, exactly when
    some stored user has the given name ignoring case.  Otherwise it returns
    the new user, with the default preferences, makes it the current user,
    and stores it through [saveUser]: appended to the array when no stored
    user has the identifier drawn, and in the place of the first stored user
    with that identifier when there is one.  [login] returns a stored user
    of that name, ignoring case, when there is one, leaving the stored users
    as they are, and returns null without touching the store when there is
    none. *)
Theorem register_and_login_by_name (name mail uuid : string)
    (item : option (list User)) (current : option string) :
  let users := default [] item in
  let st := mkStorage item current in
  let taken := ∃ u, u ∈ users ∧ toLowerCase (username u) = toLowerCase name in
  let newUser := mkUser uuid name mail (mkPreferences ISO true) in
  (register toLowerCase name mail uuid st = (st, Thrown "Username already exists")
   ↔ taken)
  ∧ (∀ m, (register toLowerCase name mail uuid st).2 = Thrown m → taken)
  ∧ (¬ taken → (∀ u, u ∈ users → id u ≠ uuid) →
       register toLowerCase name mail uuid st
       = (mkStorage (Some (users ++ [newUser])) (Some uuid), Returned newUser))
  ∧ (¬ taken →
     ∀ i w, users !! i = Some w → id w = uuid →
            (∀ j y, users !! j = Some y → (j < i)%nat → id y ≠ uuid) →
       register toLowerCase name mail uuid st
       = (mkStorage (Some (<[i := newUser]> users)) (Some uuid), Returned newUser))
  ∧ match login toLowerCase name st with
    | (st', Some u) =>
        taken
        ∧ u ∈ users
        ∧ toLowerCase (username u) = toLowerCase name
        ∧ bayan_users st' = item
        ∧ bayan_current_user_id st' = Some (id u)
    | (st', None) => ¬ taken ∧ st' = st
    end.
Proof.
  intros users st taken newUser.
  assert (Husers : getUsers st = users) by (destruct item; reflexivity).
  unfold register, login. rewrite Husers.
  destruct (findByName toLowerCase name users) as [u |] eqn:E.
  - destruct (findByName_Some _ _ _ E) as [Hu Hn].
    assert (Ht : taken) by (exists u; auto).
    split; [split; [intros _; exact Ht | reflexivity] |].
    split; [intros m _; exact Ht |].
    split; [intros Hno; destruct (Hno Ht) |].
    split; [intros Hno; destruct (Hno Ht) |].
    cbn. auto.
  - pose proof (findByName_None _ _ E) as Hnone.
    assert (Hno : ¬ taken) by (intros (u & Hu & Hn); exact (Hnone u Hu Hn)).
    split; [split; [discriminate | intros H; destruct (Hno H)] |].
    split; [discriminate |].
    split; [| split; [| split; [exact Hno | reflexivity]]].
    + intros _ Hfresh. unfold saveUser. rewrite Husers. cbn [id].
      destruct (list_find _ users) as [[i v] |] eqn:Ef; [| reflexivity].
      apply list_find_Some in Ef as (Hi & Hp & _).
      destruct (Hfresh v); [eapply list_elem_of_lookup_2; eassumption | exact Hp].
    + intros _ i w Hi Hw Hleast. unfold saveUser. rewrite Husers. cbn [id].
      assert (Ef : list_find (λ u, id u = uuid) users = Some (i, w))
        by (apply list_find_Some; auto).
      rewrite Ef. reflexivity.
Qed.

End StorageFacts.

Lemma register_and_login_by_name_witness :
  Storage.register Storage.asciiToLowerCase "ALICE" "a2@x" "id7"
    (Storage.mkStorage (Some [Examples.alice]) None)
  = (Storage.mkStorage (Some [Examples.alice]) None, Thrown "Username already exists").
Proof.
  apply (register_and_login_by_name Storage.asciiToLowerCase "ALICE" "a2@x" "id7"
           (Some [Examples.alice]) None).
  exists Examples.alice. split; [apply list_elem_of_here | reflexivity].
Defined.

(** C10, as the claim states it, fails: the name Bob is not taken, but the
    identifier drawn is the one alice is stored under; [saveUser] then puts
    the new user in the place of alice and appends nothing. *)
Lemma register_with_stored_id_overwrites :
  let st := Storage.mkStorage (Some [Examples.alice]) None in
  let newUser := Storage.mkUser "id1" "Bob" "b@x" (Storage.mkPreferences Storage.ISO true) in
  (Storage.register Storage.asciiToLowerCase "Bob" "b@x" "id1" st).2 = Returned newUser
  ∧ Storage.bayan_users (Storage.register Storage.asciiToLowerCase "Bob" "b@x" "id1" st).1
    = Some [newUser]
  ∧ ¬ (Storage.bayan_users
         (Storage.register Storage.asciiToLowerCase "Bob" "b@x" "id1" st).1
       = Some ([Examples.alice] ++ [newUser])).
Proof. cbn. repeat split. discriminate. Qed.

(* ===================================================================== *)
(** * Lists updated by key *)
(* ===================================================================== *)
Section UpsertFacts.
Import Lists.
Context {A K : Type} `{EqDecision K} (key : A → K).
Implicit Types (x y : A) (l : list A) (k : K).

Lemma findKey_Some k l y :
  findKey key k l = Some y → y ∈ l ∧ key y = k.
Proof.
  unfold findKey. intros H0.
  destruct (list_find _ l) as [[i v] |] eqn:E; [| discriminate].
  injection H0 as ->. apply list_find_Some in E as (Hi & Hp & _).
  split; [eapply list_elem_of_lookup_2; eassumption | exact Hp].
Qed.

Lemma findKey_None k l :
  findKey key k l = None ↔ ∀ y, y ∈ l → key y ≠ k.
Proof.
  unfold findKey. destruct (list_find _ l) as [[i v] |] eqn:E.
  - apply list_find_Some in E as (Hi & Hp & _). split; [discriminate |].
    intros Hall. destruct (Hall v); [eapply list_elem_of_lookup_2; eassumption | exact Hp].
  - apply list_find_None in E. rewrite Forall_forall in E. split; [| reflexivity].
    intros _ y Hy. exact (E y Hy).
Qed.

Lemma findKey_cons k x l :
  findKey key k (x :: l) = if decide (key x = k) then Some x else findKey key k l.
Proof.
  unfold findKey. cbn. destruct (decide (key x = k)); [reflexivity |].
  destruct (list_find _ l) as [[i v] |]; reflexivity.
Qed.

Lemma findKey_app k l1 l2 :
  findKey key k (l1 ++ l2)
  = match findKey key k l1 with
    | Some y => Some y
    | None => findKey key k l2
    end.
Proof.
  induction l1 as [| x l1 IH]; [reflexivity |].
  cbn [app]. rewrite !findKey_cons. destruct (decide (key x = k)); [reflexivity | exact IH].
Qed.

Lemma findKey_unique k l y :
  NoDup (key <$> l) → y ∈ l → key y = k → findKey key k l = Some y.
Proof.
  induction l as [| x l IH]; intros Hnd Hy Hk; [inversion Hy |].
  rewrite findKey_cons. cbn in Hnd. apply NoDup_cons in Hnd as [Hx Hnd].
  apply elem_of_cons in Hy as [-> | Hy].
  - rewrite decide_True by exact Hk. reflexivity.
  - destruct (decide (key x = k)) as [Hxk |]; [| auto].
    destruct Hx. rewrite Hxk, <- Hk. apply list_elem_of_fmap. eauto.
Qed.

Lemma upsert_cons x y l :
  upsert key x (y :: l) = if decide (key y = key x) then x :: l else y :: upsert key x l.
Proof.
  unfold upsert. cbn. destruct (decide (key y = key x)); [reflexivity |].
  destruct (list_find _ l) as [[i v] |]; reflexivity.
Qed.

Lemma upsert_nil x : upsert key x [] = [x].
Proof. reflexivity. Qed.

Lemma upsert_findKey_same x l : findKey key (key x) (upsert key x l) = Some x.
Proof.
  induction l as [| y l IH]; [cbn; unfold findKey; cbn; rewrite decide_True; reflexivity |].
  rewrite upsert_cons. destruct (decide (key y = key x)) as [Hy | Hy];
    rewrite findKey_cons; [rewrite decide_True by reflexivity; reflexivity |].
  rewrite decide_False by exact Hy. exact IH.
Qed.

Lemma upsert_findKey_other x l k :
  k ≠ key x → findKey key k (upsert key x l) = findKey key k l.
Proof.
  intros Hk. induction l as [| y l IH].
  - rewrite upsert_nil, findKey_cons, decide_False by congruence. reflexivity.
  - rewrite upsert_cons. destruct (decide (key y = key x)) as [Hy | Hy];
      rewrite !findKey_cons.
    + rewrite !decide_False by congruence. reflexivity.
    + rewrite IH. reflexivity.
Qed.

Lemma upsert_length x l :
  length (upsert key x l)
  = match findKey key (key x) l with
    | Some _ => length l
    | None => S (length l)
    end.
Proof.
  induction l as [| y l IH]; [reflexivity |].
  rewrite upsert_cons, findKey_cons. destruct (decide (key y = key x)); [reflexivity |].
  cbn [length]. rewrite IH. destruct (findKey key (key x) l); reflexivity.
Qed.

Lemma upsert_elem_of x l y : y ∈ upsert key x l → y = x ∨ y ∈ l.
Proof.
  induction l as [| z l IH]; rewrite ?upsert_nil, ?upsert_cons.
  - intros Hy. apply list_elem_of_singleton in Hy. auto.
  - destruct (decide (key z = key x)); rewrite !elem_of_cons; intros [-> | Hy]; auto.
    destruct (IH Hy); auto.
Qed.

Lemma upsert_keys x l :
  ∀ k, k ∈ key <$> upsert key x l ↔ k = key x ∨ k ∈ key <$> l.
Proof.
  intros k. induction l as [| z l IH]; rewrite ?upsert_nil, ?upsert_cons.
  - cbn. rewrite list_elem_of_singleton, elem_of_nil. tauto.
  - destruct (decide (key z = key x)) as [Hz |]; cbn; rewrite !elem_of_cons, ?IH;
      [rewrite Hz |]; tauto.
Qed.

Lemma upsert_NoDup x l : NoDup (key <$> l) → NoDup (key <$> upsert key x l).
Proof.
  induction l as [| z l IH]; intros Hnd; rewrite ?upsert_nil, ?upsert_cons.
  - cbn. apply NoDup_singleton.
  - cbn in Hnd. apply NoDup_cons in Hnd as [Hz Hnd].
    destruct (decide (key z = key x)) as [Hzx | Hzx]; cbn; apply NoDup_cons.
    + rewrite <- Hzx. auto.
    + split; [| auto]. rewrite upsert_keys. intros [? | ?]; auto.
Qed.

Lemma upsert_upsert x l : upsert key x (upsert key x l) = upsert key x l.
Proof.
  induction l as [| z l IH].
  - rewrite upsert_nil, upsert_cons, decide_True by reflexivity. reflexivity.
  - rewrite upsert_cons. destruct (decide (key z = key x)) as [Hz | Hz];
      rewrite upsert_cons.
    + rewrite decide_True by reflexivity. reflexivity.
    + rewrite decide_False by exact Hz. rewrite IH. reflexivity.
Qed.

Lemma upsert_filter_other x l :
  filter (λ y, key y ≠ key x) (upsert key x l) = filter (λ y, key y ≠ key x) l.
Proof.
  induction l as [| z l IH]; rewrite ?upsert_nil, ?upsert_cons.
  - rewrite filter_cons_False by (intros Hne; apply Hne; reflexivity). reflexivity.
  - destruct (decide (key z = key x)) as [Hzx | Hzx].
    + rewrite !filter_cons_False by (intros Hne; apply Hne; auto). reflexivity.
    + rewrite !filter_cons_True by exact Hzx. rewrite IH. reflexivity.
Qed.

Lemma upsert_elem_of_same x l : x ∈ upsert key x l.
Proof.
  exact (proj1 (findKey_Some (key x) _ x (upsert_findKey_same x l))).
Qed.

End UpsertFacts.

(* ===================================================================== *)
(** * More properties of the user store *)
(* ===================================================================== *)
Section UserStoreFacts.
Import Storage.
Variable toLowerCase : string → string.

Lemma getUsers_saveUser u st :
  getUsers (saveUser u st) = Lists.upsert id u (getUsers st).
Proof.
  unfold saveUser, Lists.upsert.
  destruct (list_find _ (getUsers st)) as [[i v] |]; reflexivity.
Qed.

Lemma saveUser_eq u st :
  saveUser u st = mkStorage (Some (Lists.upsert id u (getUsers st))) (bayan_current_user_id st).
Proof.
  unfold saveUser, Lists.upsert.
  destruct (list_find _ (getUsers st)) as [[i v] |]; reflexivity.
Qed.

(** X1. [saveUser] stores a user under its identifier: afterwards the first
    stored user with that identifier is the saved one, a search for any
    other identifier gives what it gave before, the array has grown by one
    exactly when the identifier was not stored, the current user is
    untouched, and saving the same user again changes nothing. *)
Theorem saveUser_stores_by_id (u : User) (st : LocalStorage) :
  findById (id u) (getUsers (saveUser u st)) = Some u
  ∧ (∀ uid, uid ≠ id u →
       findById uid (getUsers (saveUser u st)) = findById uid (getUsers st))
  ∧ length (getUsers (saveUser u st))
    = match findById (id u) (getUsers st) with
      | Some _ => length (getUsers st)
      | None => S (length (getUsers st))
      end
  ∧ bayan_current_user_id (saveUser u st) = bayan_current_user_id st
  ∧ saveUser u (saveUser u st) = saveUser u st.
Proof.
  rewrite !getUsers_saveUser. split; [apply (upsert_findKey_same id) |].
  split; [intros uid Hne; apply (upsert_findKey_other id); exact Hne |].
  split; [apply (upsert_length id) |].
  rewrite !saveUser_eq. cbn. rewrite (upsert_upsert id). auto.
Qed.

Lemma updatePreferences_ids uid prefs st :
  id <$> getUsers (updatePreferences uid prefs st).1 = id <$> getUsers st
  ∧ username <$> getUsers (updatePreferences uid prefs st).1 = username <$> getUsers st
  ∧ email <$> getUsers (updatePreferences uid prefs st).1 = email <$> getUsers st.
Proof.
  unfold updatePreferences.
  destruct (list_find _ (getUsers st)) as [[i v] |] eqn:E; [| auto].
  apply list_find_Some in E as (Hi & _ & _). cbn.
  rewrite !list_fmap_insert. cbn.
  rewrite !list_insert_id by (rewrite list_lookup_fmap, Hi; reflexivity). auto.
Qed.

(** X2. Every function of the user store keeps the stored identifiers pairwise
    distinct, [register] whatever identifier is drawn. *)
Theorem user_ids_stay_distinct (st : LocalStorage) :
  distinctIds st →
  (∀ u, distinctIds (saveUser u st))
  ∧ (∀ name mail uuid, distinctIds (register toLowerCase name mail uuid st).1)
  ∧ (∀ name, distinctIds (login toLowerCase name st).1)
  ∧ distinctIds (logout st)
  ∧ (∀ uid prefs, distinctIds (updatePreferences uid prefs st).1).
Proof.
  unfold distinctIds. intros Hnd.
  assert (Hsave : ∀ u, NoDup (id <$> getUsers (saveUser u st))).
  { intros u. rewrite getUsers_saveUser. apply (upsert_NoDup id), Hnd. }
  split; [exact Hsave |]. split; [| split; [| split]].
  - intros name mail uuid. unfold register.
    destruct (findByName _ _ _); [exact Hnd | apply Hsave].
  - intros name. unfold login. destruct (findByName _ _ _); exact Hnd.
  - exact Hnd.
  - intros uid prefs. destruct (updatePreferences_ids uid prefs st) as [-> _]. exact Hnd.
Qed.

Lemma findByName_elem_of name users u :
  u ∈ users → toLowerCase (username u) = toLowerCase name →
  (∀ v, v ∈ users → toLowerCase (username v) = toLowerCase name → v = u) →
  findByName toLowerCase name users = Some u.
Proof.
  intros Hu Hn Hall. unfold findByName.
  destruct (list_find _ users) as [[i v] |] eqn:E; cbn.
  - f_equal. apply list_find_Some in E as (Hi & Hp & _).
    apply Hall; [eapply list_elem_of_lookup_2; eassumption | exact Hp].
  - apply list_find_None in E. rewrite Forall_forall in E. destruct (E u Hu Hn).
Qed.

(** X3. A registration can be used at once and later: after [register] has
    returned a user (with a non-empty identifier), [getCurrentUser] gives
    this user; after [logout] it gives null; and [login] with the same name,
    in any case of letters, gives the user back and restores the store. *)
Theorem register_logout_login (name mail uuid : string) (st st' : LocalStorage) (u : User) :
  register toLowerCase name mail uuid st = (st', Returned u) →
  uuid ≠ ""%string →
  getCurrentUser st' = Some u
  ∧ getCurrentUser (logout st') = None
  ∧ (∀ name', toLowerCase name' = toLowerCase name →
       login toLowerCase name' (logout st') = (st', Some u)).
Proof.
  unfold register. intros Hreg Huuid.
  destruct (findByName toLowerCase name (getUsers st)) as [w |] eqn:E; [discriminate |].
  injection Hreg as <- <-. rewrite saveUser_eq. cbn [id].
  set (u := mkUser uuid name mail DEFAULT_PREFERENCES).
  assert (Hfind : findById uuid (Lists.upsert id u (getUsers st)) = Some u)
    by apply (upsert_findKey_same id u).
  split; [| split; [reflexivity |]].
  - unfold getCurrentUser. cbn. rewrite (proj2 (String.eqb_neq _ _) Huuid). exact Hfind.
  - intros name' Hname'. unfold login.
    change (getUsers (logout _)) with (Lists.upsert id u (getUsers st)).
    rewrite (findByName_elem_of name' _ u); [reflexivity | | symmetry; exact Hname' |].
    + exact (proj1 (findKey_Some id _ _ _ Hfind)).
    + intros v Hv Hvn. apply (upsert_elem_of id) in Hv as [-> | Hv]; [reflexivity |].
      unfold findByName in E.
      destruct (list_find _ (getUsers st)) as [[i x] |] eqn:E'; [discriminate |].
      apply list_find_None in E'. rewrite Forall_forall in E'.
      destruct (E' v Hv). unfold sameName. congruence.
Qed.

(** X4. After a successful [login] the current user is the user returned,
    provided the stored identifiers are distinct and that of the user is not
    empty. *)
Theorem login_sets_current_user (name : string) (st st' : LocalStorage) (u : User) :
  login toLowerCase name st = (st', Some u) →
  distinctIds st → id u ≠ ""%string →
  getCurrentUser st' = Some u ∧ getUsers st' = getUsers st.
Proof.
  unfold login. intros Hlogin Hnd Hid.
  destruct (findByName toLowerCase name (getUsers st)) as [w |] eqn:E; [| discriminate].
  injection Hlogin as <- <-. split; [| reflexivity].
  unfold getCurrentUser. cbn. rewrite (proj2 (String.eqb_neq _ _) Hid).
  apply (findKey_unique id); [exact Hnd | | reflexivity].
  unfold findByName in E.
  destruct (list_find _ (getUsers st)) as [[i x] |] eqn:E'; [| discriminate].
  injection E as ->. apply list_find_Some in E' as (Hi & _).
  eapply list_elem_of_lookup_2; eassumption.
Qed.

Lemma findById_insert_same users i w w' uid :
  list_find (λ u, id u = uid) users = Some (i, w) → id w' = uid →
  findById uid (<[i := w']> users) = Some w'.
Proof.
  intros E Hw'. apply list_find_Some in E as (Hi & Hp & Hleast). unfold findById.
  replace (list_find (λ u, id u = uid) (<[i:=w']> users)) with (Some (i, w'));
    [reflexivity |]. symmetry. apply list_find_insert_Some. right. left.
  repeat split; try reflexivity;
    [eapply lookup_lt_Some; eassumption | exact Hw' | exact Hleast].
Qed.

(** X5. [updatePreferences] returns null and leaves the store alone when no
    stored user has the identifier; otherwise it returns the first such user
    with the given properties laid over its preferences, puts it in the
    place of that user, and changes no identifier, name or address of the
    array, nor the current user. *)
Theorem updatePreferences_merges (uid : string) (prefs : PartialPreferences)
    (st : LocalStorage) :
  match updatePreferences uid prefs st with
  | (st', Some u') =>
      ∃ u, findById uid (getUsers st) = Some u
           ∧ u' = withPreferences (mergePreferences (preferences u) prefs) u
           ∧ findById uid (getUsers st') = Some u'
           ∧ id <$> getUsers st' = id <$> getUsers st
           ∧ username <$> getUsers st' = username <$> getUsers st
           ∧ email <$> getUsers st' = email <$> getUsers st
           ∧ (∀ other, other ≠ uid →
                findById other (getUsers st') = findById other (getUsers st))
           ∧ bayan_current_user_id st' = bayan_current_user_id st
  | (st', None) => st' = st ∧ findById uid (getUsers st) = None
  end.
Proof.
  pose proof (updatePreferences_ids uid prefs st) as (Hids & Hnames & Hmails).
  unfold updatePreferences in *. unfold findById.
  destruct (list_find _ (getUsers st)) as [[i v] |] eqn:E; [| auto].
  cbn in *. exists v. split; [reflexivity |]. split; [reflexivity |].
  pose proof E as E0. apply list_find_Some in E as (Hi & Hp & Hleast).
  set (v' := withPreferences (mergePreferences (preferences v) prefs) v) in *.
  split; [| repeat split; try assumption].
  - apply (findById_insert_same _ i v); [exact E0 | exact Hp].
  - intros other Hother. f_equal.
    apply option_eq. intros [j y]. rewrite list_find_insert_Some. split.
    + intros [[_ H1] | [(_ & <- & _ & Hpv & _) | [(_ & _ & H1 & _) |
                (z & _ & _ & _ & Hpz & Hz & _)]]]; try exact H1.
      * subst v'. cbn in Hpv. congruence.
      * rewrite Hi in Hz. injection Hz as <-. congruence.
    + intros H1. pose proof H1 as H2. apply list_find_Some in H2 as (Hj & Hpj & _).
      destruct (lt_eq_lt_dec j i) as [[Hlt | ->] | Hgt].
      * left. auto.
      * rewrite Hi in Hj. injection Hj as <-. congruence.
      * right. right. left. repeat split; try assumption.
        -- cbn. congruence.
        -- intros z Hz. rewrite Hi in Hz. injection Hz as <-. congruence.
Qed.

End UserStoreFacts.

(* ===================================================================== *)
(** * Properties of the project store *)
(* ===================================================================== *)
Section ProjectStoreFacts.
Import Projects.

Lemma insertNewest_split p l :
  ∃ l1 l2, l = l1 ++ l2 ∧ insertNewest p l = l1 ++ p :: l2
           ∧ Forall (λ q, (createdAt p < createdAt q)%Z) l1
           ∧ match l2 with
             | [] => True
             | q :: _ => (createdAt q <= createdAt p)%Z
             end.
Proof.
  induction l as [| q l IH]; [exists [], []; cbn; auto |].
  cbn. destruct (createdAt q <=? createdAt p)%Z eqn:E.
  - exists [], (q :: l). cbn. apply Z.leb_le in E. auto.
  - destruct IH as (l1 & l2 & -> & Hins & H1 & H2). exists (q :: l1), l2.
    rewrite Hins. apply Z.leb_gt in E. repeat split; auto.
Qed.

Lemma insertNewest_perm p l : insertNewest p l ≡ₚ p :: l.
Proof.
  destruct (insertNewest_split p l) as (l1 & l2 & -> & -> & _).
  symmetry. apply Permutation_middle.
Qed.

Lemma insertNewest_sorted p l :
  StronglySorted newerOrSame l → StronglySorted newerOrSame (insertNewest p l).
Proof.
  intros Hs. destruct (insertNewest_split p l) as (l1 & l2 & -> & -> & H1 & H2).
  apply StronglySorted_app in Hs as (H12 & Hs1 & Hs2).
  apply StronglySorted_app. split; [| split; [exact Hs1 |]].
  - intros x1 x2 Hx1 Hx2. apply elem_of_cons in Hx2 as [-> | Hx2]; [| auto].
    rewrite Forall_forall in H1. specialize (H1 x1 Hx1). unfold newerOrSame. lia.
  - apply SSorted_cons; [exact Hs2 |].
    destruct l2 as [| q l2]; [constructor |].
    apply StronglySorted_inv in Hs2 as [_ Hq].
    constructor; [exact H2 |].
    eapply Forall_impl; [exact Hq |]. unfold newerOrSame. cbn. intros r Hr. lia.
Qed.

Lemma insertNewest_filter (P : Project → Prop) `{!∀ q, Decision (P q)} p l :
  StronglySorted newerOrSame l →
  filter P (insertNewest p l)
  = if decide (P p) then insertNewest p (filter P l) else filter P l.
Proof.
  induction l as [| q l IH]; intros Hs.
  - cbn [insertNewest]. rewrite filter_cons, !filter_nil.
    destruct (decide (P p)); reflexivity.
  - apply StronglySorted_inv in Hs as [Hs Hq]. specialize (IH Hs).
    cbn [insertNewest]. destruct (createdAt q <=? createdAt p)%Z eqn:E.
    + rewrite filter_cons. destruct (decide (P p)) as [Hp | Hp]; [| reflexivity].
      rewrite (filter_cons _ q). destruct (decide (P q)).
      * cbn [insertNewest]. rewrite E. reflexivity.
      * apply Z.leb_le in E.
        assert (Hall : Forall (λ r, (createdAt r <= createdAt p)%Z) (filter P l)).
        { apply Forall_forall. intros r Hr. apply list_elem_of_filter in Hr as [_ Hr].
          rewrite Forall_forall in Hq. specialize (Hq r Hr). unfold newerOrSame in Hq. lia. }
        destruct (filter P l) as [| r rest]; [reflexivity |].
        apply Forall_cons in Hall as [Hr _]. cbn [insertNewest].
        apply Z.leb_le in Hr. rewrite Hr. reflexivity.
    + rewrite filter_cons, IH. rewrite (filter_cons _ q).
      destruct (decide (P q)), (decide (P p)); cbn [insertNewest]; rewrite ?E; reflexivity.
Qed.

Lemma insertNewest_same_time t p l :
  filter (λ q, createdAt q = t) (insertNewest p l)
  = if decide (createdAt p = t) then p :: filter (λ q, createdAt q = t) l
    else filter (λ q, createdAt q = t) l.
Proof.
  destruct (insertNewest_split p l) as (l1 & l2 & -> & -> & H1 & _).
  rewrite !filter_app, filter_cons.
  destruct (decide (createdAt p = t)) as [Hp | Hp]; [| reflexivity].
  assert (Hnil : filter (λ q, createdAt q = t) l1 = []).
  { clear -H1 Hp. induction H1 as [| q l1 Hq _ IH]; [reflexivity |].
    rewrite filter_cons_False by lia. exact IH. }
  rewrite Hnil. reflexivity.
Qed.

Lemma sortNewestFirst_perm l : sortNewestFirst l ≡ₚ l.
Proof.
  induction l as [| p l IH]; [reflexivity |].
  cbn. rewrite insertNewest_perm. f_equiv. exact IH.
Qed.

Lemma sortNewestFirst_sorted l : StronglySorted newerOrSame (sortNewestFirst l).
Proof.
  induction l as [| p l IH]; [constructor |]. cbn. apply insertNewest_sorted, IH.
Qed.

Lemma sortNewestFirst_filter (P : Project → Prop) `{!∀ q, Decision (P q)} l :
  filter P (sortNewestFirst l) = sortNewestFirst (filter P l).
Proof.
  induction l as [| p l IH]; [reflexivity |].
  cbn [sortNewestFirst foldr]. rewrite insertNewest_filter by apply sortNewestFirst_sorted.
  rewrite filter_cons. fold (sortNewestFirst l). rewrite IH.
  destruct (decide (P p)); reflexivity.
Qed.

Lemma sortNewestFirst_stable t l :
  filter (λ q, createdAt q = t) (sortNewestFirst l) = filter (λ q, createdAt q = t) l.
Proof.
  induction l as [| p l IH]; [reflexivity |].
  cbn [sortNewestFirst foldr]. rewrite insertNewest_same_time. fold (sortNewestFirst l).
  rewrite IH, filter_cons. reflexivity.
Qed.

Lemma getProjects_elem_of uid st p :
  p ∈ getProjects uid st ↔ p ∈ allProjects st ∧ userId p = uid.
Proof.
  unfold getProjects. rewrite sortNewestFirst_perm, list_elem_of_filter. tauto.
Qed.

(** X6. [getProjects] returns the stored projects of the user, all of them and
    no other, each as often as it is stored; newest first; projects of the
    same time in the order in which they are stored. *)
Theorem getProjects_newest_first (uid : string) (st : LocalStorage) :
  (∀ p, p ∈ getProjects uid st ↔ p ∈ allProjects st ∧ userId p = uid)
  ∧ getProjects uid st ≡ₚ filter (λ p, userId p = uid) (allProjects st)
  ∧ StronglySorted newerOrSame (getProjects uid st)
  ∧ (∀ t, filter (λ p, createdAt p = t) (getProjects uid st)
          = filter (λ p, createdAt p = t)
              (filter (λ p, userId p = uid) (allProjects st))).
Proof.
  split; [| split; [| split]]; [| unfold getProjects ..].
  - intros p. apply getProjects_elem_of.
  - apply sortNewestFirst_perm.
  - apply sortNewestFirst_sorted.
  - intros t. apply sortNewestFirst_stable.
Qed.

Lemma allProjects_saveProject p st :
  allProjects (saveProject p st) = Lists.upsert id p (allProjects st).
Proof.
  unfold saveProject, Lists.upsert.
  destruct (list_find _ (allProjects st)) as [[i v] |]; reflexivity.
Qed.

Lemma saveProject_eq p st :
  saveProject p st
  = mkStorage (userItems st) (Some (Lists.upsert id p (allProjects st)))
      (bayan_onboarding_seen st).
Proof.
  unfold saveProject, Lists.upsert.
  destruct (list_find _ (allProjects st)) as [[i v] |]; reflexivity.
Qed.

(** X7. [saveProject] stores a project under its identifier: afterwards the
    project is among those [getProjects] returns for its user; the first
    stored project with that identifier is the saved one; the stored
    projects with other identifiers are the same, in the same order; distinct
    identifiers stay distinct; and saving it again changes nothing. *)
Theorem saveProject_stores_by_id (p : Project) (st : LocalStorage) :
  p ∈ getProjects (userId p) (saveProject p st)
  ∧ Lists.findKey id (id p) (allProjects (saveProject p st)) = Some p
  ∧ filter (λ q, id q ≠ id p) (allProjects (saveProject p st))
    = filter (λ q, id q ≠ id p) (allProjects st)
  ∧ (NoDup (id <$> allProjects st) → NoDup (id <$> allProjects (saveProject p st)))
  ∧ saveProject p (saveProject p st) = saveProject p st.
Proof.
  rewrite !allProjects_saveProject. split; [| split; [| split; [| split]]].
  - apply getProjects_elem_of. rewrite allProjects_saveProject.
    split; [apply (upsert_elem_of_same id) | reflexivity].
  - apply (upsert_findKey_same id).
  - apply (upsert_filter_other id).
  - apply (upsert_NoDup id).
  - rewrite !saveProject_eq. cbn. rewrite (upsert_upsert id). reflexivity.
Qed.

Lemma getProjects_deleteProject uid pid st :
  getProjects uid (deleteProject pid st)
  = filter (λ p, id p ≠ pid) (getProjects uid st).
Proof.
  unfold getProjects, deleteProject. cbn [allProjects setProjects bayan_projects].
  rewrite sortNewestFirst_filter. f_equal.
  rewrite !list_filter_filter. apply list_filter_iff. tauto.
Qed.

(** X8. [deleteProject] removes every stored project with the identifier and
    keeps the others in their order: for every user [getProjects] returns
    afterwards what it returned before without those projects.  When no
    stored project has the identifier the stored projects are the same.
    Deleting a project that has just been saved gives the projects that
    deleting it before the save would give. *)
Theorem deleteProject_removes_by_id (pid : string) (st : LocalStorage) :
  (∀ p, p ∈ allProjects (deleteProject pid st) ↔ p ∈ allProjects st ∧ id p ≠ pid)
  ∧ (∀ uid, getProjects uid (deleteProject pid st)
            = filter (λ p, id p ≠ pid) (getProjects uid st))
  ∧ (Lists.findKey id pid (allProjects st) = None →
       allProjects (deleteProject pid st) = allProjects st)
  ∧ (∀ p, id p = pid →
       allProjects (deleteProject pid (saveProject p st))
       = allProjects (deleteProject pid st)).
Proof.
  split; [| split; [| split]].
  - intros p. cbn. rewrite list_elem_of_filter. tauto.
  - intros uid. apply getProjects_deleteProject.
  - intros Hnone. cbn.
    pose proof (proj1 (findKey_None id pid (allProjects st)) Hnone) as Hall.
    clear Hnone. induction (allProjects st) as [| q l IH]; [reflexivity |].
    rewrite filter_cons_True by (apply Hall; left).
    f_equal. apply IH. intros y Hy. apply Hall. right. exact Hy.
  - intros p <-.
    transitivity (filter (λ q, id q ≠ id p) (allProjects (saveProject p st)));
      [reflexivity |].
    rewrite allProjects_saveProject. apply (upsert_filter_other id).
Qed.

(** X9. The list the dashboard shows stays the one of the store: if it is what
    [getProjects] returns for the user, it still is after [handleDelete],
    whatever the answer to the confirmation. *)
Theorem handleDelete_keeps_view_in_step (confirmed : bool) (uid pid : string)
    (projects : list Project) (st : LocalStorage) :
  projects = getProjects uid st →
  (Dashboard.handleDelete confirmed pid projects st).1
  = getProjects uid (Dashboard.handleDelete confirmed pid projects st).2.
Proof.
  intros ->. unfold Dashboard.handleDelete. destruct confirmed; cbn [fst snd].
  - symmetry. apply getProjects_deleteProject.
  - reflexivity.
Qed.

(** X10. The onboarding flag reads back as it was saved, and reads false as long
    as nothing was saved; saving it touches neither users nor projects. *)
Theorem onboarding_status_round_trip (seen : bool) (st : LocalStorage) :
  getOnboardingStatus (saveOnboardingStatus seen st) = seen
  ∧ (bayan_onboarding_seen st = None → getOnboardingStatus st = false)
  ∧ userItems (saveOnboardingStatus seen st) = userItems st
  ∧ allProjects (saveOnboardingStatus seen st) = allProjects st.
Proof.
  unfold getOnboardingStatus. repeat split.
  - destruct seen; reflexivity.
  - intros ->. reflexivity.
Qed.

End ProjectStoreFacts.

(* ===================================================================== *)
(** * Properties of the callers of the store *)
(* ===================================================================== *)
Section CallerFacts.
Variable toLowerCase : string → string.

(** X11. [handleSubmit] of the sign-in form.  When it shows an error the store
    is as before, and the error tells what happened: an empty field, a name
    that is taken (when registering), or no user of that name (when logging
    in).  When it logs a user in, this user is stored, is the current user
    and bears the name typed, ignoring case; a registration stores the
    values typed with the default preferences, and a login leaves the
    stored users as they are. *)
Theorem handleSubmit_outcome (isRegistering : bool) (username email uuid : string)
    (st : Storage.LocalStorage) :
  match AuthModal.handleSubmit toLowerCase isRegistering username email uuid st with
  | (st', AuthModal.ShowError m) =>
      st' = st
      ∧ ((isRegistering = true ∧ (username = "" ∨ email = "")
          ∧ m = "Please fill in all fields")
         ∨ (isRegistering = true ∧ Storage.nameTaken toLowerCase username st
            ∧ m = "Username already exists")
         ∨ (isRegistering = false ∧ username = ""
            ∧ m = "Please enter username")
         ∨ (isRegistering = false ∧ ¬ Storage.nameTaken toLowerCase username st
            ∧ m = "User not found"))%string
  | (st', AuthModal.LoggedIn u) =>
      username ≠ ""%string
      ∧ u ∈ Storage.getUsers st'
      ∧ Storage.bayan_current_user_id st' = Some (Storage.id u)
      ∧ toLowerCase (Storage.username u) = toLowerCase username
      ∧ (if isRegistering
         then email ≠ ""%string
              ∧ u = Storage.mkUser uuid username email (Storage.mkPreferences Storage.ISO true)
              ∧ ¬ Storage.nameTaken toLowerCase username st
         else u ∈ Storage.getUsers st ∧ Storage.getUsers st' = Storage.getUsers st)
  end.
Proof.
  unfold AuthModal.handleSubmit, Storage.register, Storage.login, Storage.nameTaken.
  destruct isRegistering.
  - destruct (String.eqb_spec username "") as [-> | Hu]; cbn [orb]; [auto 10 |].
    destruct (String.eqb_spec email "") as [-> | He]; [auto 10 |].
    destruct (Storage.findByName toLowerCase username (Storage.getUsers st)) as [w |] eqn:E.
    + destruct (findByName_Some _ _ _ _ E) as [Hw Hn]. split; [reflexivity |].
      right. left. eauto.
    + split; [exact Hu |]. rewrite saveUser_eq. cbn.
      split; [apply (upsert_elem_of_same Storage.id) |].
      repeat split; try assumption.
      intros (v & Hv & Hn). exact (findByName_None _ _ _ E v Hv Hn).
  - destruct (String.eqb_spec username "") as [-> | Hu]; [auto 10 |].
    destruct (Storage.findByName toLowerCase username (Storage.getUsers st)) as [w |] eqn:E.
    + destruct (findByName_Some _ _ _ _ E) as [Hw Hn]. cbn. auto 10.
    + split; [reflexivity |]. right. right. right. repeat split.
      intros (v & Hv & Hn). exact (findByName_None _ _ _ E v Hv Hn).
Qed.

End CallerFacts.

Section SaveFacts.
Import Projects.

Lemma orString_nonempty a b : a ≠ ""%string → Summarizer.orString a b = a.
Proof.
  intros Ha. unfold Summarizer.orString. rewrite (proj2 (String.eqb_neq _ _) Ha). reflexivity.
Qed.

Lemma upsert_same_keys_of_found {A K : Type} `{EqDecision K} (key : A → K) x (l : list A) :
  Lists.findKey key (key x) l ≠ None →
  key <$> Lists.upsert key x l = key <$> l.
Proof.
  induction l as [| y l IH]; intros Hf; [destruct Hf; reflexivity |].
  rewrite (upsert_cons key). rewrite (findKey_cons key) in Hf.
  destruct (decide (key y = key x)) as [Hy | Hy]; cbn; [congruence |].
  rewrite IH by exact Hf. reflexivity.
Qed.

Lemma handleSave_projects inp uuid now st u sm :
  Summarizer.user inp = Some u → Summarizer.summary inp = Some sm →
  Summarizer.inputText inp ≠ ""%string →
  let p := Summarizer.projectToSave inp u sm uuid now in
  (Summarizer.handleSave inp uuid now st).2 = Summarizer.Saved (id p)
  ∧ allProjects (Summarizer.handleSave inp uuid now st).1
    = Lists.upsert id p (allProjects st)
  ∧ bayan_onboarding_seen (Summarizer.handleSave inp uuid now st).1
    = bayan_onboarding_seen st.
Proof.
  intros Hu Hs Ht p. unfold Summarizer.handleSave. rewrite Hu, Hs.
  rewrite (proj2 (String.eqb_neq _ _) Ht). fold p. cbn [fst snd].
  split; [reflexivity |].
  destruct (Summarizer.preferencesChanged _ _); cbn;
    rewrite ?saveProject_eq; cbn; auto.
Qed.

(** X12. [handleSave] touches the store only when there is a user, a summary and
    a text; then the project it builds is stored under its identifier and is
    among the projects [getProjects] returns for the user, with the text and
    the summary of the form; the stored projects with other identifiers are
    those of before. *)
Theorem handleSave_outcome (inp : Summarizer.SaveInput) (uuid : string) (now : Z)
    (st : LocalStorage) :
  match Summarizer.handleSave inp uuid now st with
  | (st', Summarizer.Saved pid) =>
      ∃ u sm p,
        Summarizer.user inp = Some u
        ∧ Summarizer.summary inp = Some sm
        ∧ Summarizer.inputText inp ≠ ""%string
        ∧ p = Summarizer.projectToSave inp u sm uuid now
        ∧ pid = id p
        ∧ transcript p = Summarizer.inputText inp
        ∧ summary p = Some sm
        ∧ Lists.findKey id pid (allProjects st') = Some p
        ∧ p ∈ getProjects (Storage.id u) st'
        ∧ filter (λ q, id q ≠ pid) (allProjects st')
          = filter (λ q, id q ≠ pid) (allProjects st)
  | (st', _) => st' = st
  end.
Proof.
  destruct (Summarizer.user inp) as [u |] eqn:Hu;
    [| unfold Summarizer.handleSave; rewrite Hu; reflexivity].
  destruct (Summarizer.summary inp) as [sm |] eqn:Hs;
    [| unfold Summarizer.handleSave; rewrite Hu, Hs; reflexivity].
  destruct (String.eqb_spec (Summarizer.inputText inp) "") as [Ht | Ht];
    [unfold Summarizer.handleSave; rewrite Hu, Hs, Ht; reflexivity |].
  destruct (handleSave_projects inp uuid now st u sm Hu Hs Ht) as (Ho & Hp & _).
  destruct (Summarizer.handleSave inp uuid now st) as [st' o]. cbn [fst snd] in *.
  subst o. exists u, sm, (Summarizer.projectToSave inp u sm uuid now).
  repeat split; try assumption.
  - rewrite Hp. apply (upsert_findKey_same id).
  - apply getProjects_elem_of. rewrite Hp.
    split; [apply (upsert_elem_of_same id) | reflexivity].
  - rewrite Hp. apply (upsert_filter_other id).
Qed.

Lemma mergePreferences_allOf old p :
  Storage.mergePreferences old (Summarizer.allOf p) = p.
Proof. destruct p. reflexivity. Qed.

(** X13. When the preferences of the form differ from those of the user the
    component was given, [handleSave] writes them to the stored user of that
    identifier, whose other fields stay; when there is no such stored user,
    or when they do not differ, the user items of the store stay as they
    are. *)
Theorem handleSave_stores_preferences (inp : Summarizer.SaveInput) (uuid : string)
    (now : Z) (st st' : LocalStorage) (pid : string) (u : Storage.User) :
  Summarizer.handleSave inp uuid now st = (st', Summarizer.Saved pid) →
  Summarizer.user inp = Some u →
  if Summarizer.preferencesChanged (Storage.preferences u) (Summarizer.preferences inp)
  then match Storage.findById (Storage.id u) (Storage.getUsers (userItems st)) with
       | Some w =>
           Storage.findById (Storage.id u) (Storage.getUsers (userItems st'))
           = Some (Storage.withPreferences (Summarizer.preferences inp) w)
       | None => userItems st' = userItems st
       end
  else userItems st' = userItems st.
Proof.
  unfold Summarizer.handleSave. intros Hsave Hu. rewrite Hu in Hsave.
  destruct (Summarizer.summary inp) as [sm |]; [| discriminate].
  destruct (String.eqb (Summarizer.inputText inp) ""); [discriminate |].
  rewrite saveProject_eq in Hsave.
  destruct (Summarizer.preferencesChanged _ _); injection Hsave as <- _;
    [| reflexivity].
  cbn [userItems Projects.setUserItems]. unfold Storage.updatePreferences, Storage.findById.
  destruct (list_find _ (Storage.getUsers (userItems st))) as [[i w] |] eqn:E;
    cbn [fst snd option_fmap option_map fmap]; [| reflexivity].
  rewrite mergePreferences_allOf.
  apply (findById_insert_same _ i w); [exact E |].
  apply list_find_Some in E as (_ & Hp & _). exact Hp.
Qed.

(** X14. Saving again after a save writes over the project saved first: the
    second [handleSave], run in the state the first one leaves (with
    [currentProjectId] set), saves under the same identifier, and the stored
    projects have the identifiers they had, in the same order. *)
Theorem handleSave_again_overwrites (inp : Summarizer.SaveInput) (uuid uuid' : string)
    (now now' : Z) (st st1 : LocalStorage) (pid : string) :
  Summarizer.handleSave inp uuid now st = (st1, Summarizer.Saved pid) →
  pid ≠ ""%string →
  let inp' := Summarizer.afterSave inp (Summarizer.Saved pid) in
  (Summarizer.handleSave inp' uuid' now' st1).2 = Summarizer.Saved pid
  ∧ id <$> allProjects (Summarizer.handleSave inp' uuid' now' st1).1
    = id <$> allProjects st1.
Proof.
  intros Hsave Hpid inp'.
  destruct (Summarizer.user inp) as [u |] eqn:Hu;
    [| unfold Summarizer.handleSave in Hsave; rewrite Hu in Hsave; discriminate].
  destruct (Summarizer.summary inp) as [sm |] eqn:Hs;
    [| unfold Summarizer.handleSave in Hsave; rewrite Hu, Hs in Hsave; discriminate].
  destruct (String.eqb_spec (Summarizer.inputText inp) "") as [Ht | Ht];
    [unfold Summarizer.handleSave in Hsave; rewrite Hu, Hs, Ht in Hsave; discriminate |].
  destruct (handleSave_projects inp uuid now st u sm Hu Hs Ht) as (Ho1 & Hp1 & _).
  rewrite Hsave in Ho1, Hp1. cbn [fst snd] in Ho1, Hp1. injection Ho1 as ->.
  assert (Hfind : Lists.findKey id (id (Summarizer.projectToSave inp u sm uuid now))
                    (allProjects st1)
                  = Some (Summarizer.projectToSave inp u sm uuid now))
    by (rewrite Hp1; apply (upsert_findKey_same id)).
  destruct (handleSave_projects inp' uuid' now' st1 u sm Hu Hs Ht) as (Ho & Hp & _).
  assert (Hid : id (Summarizer.projectToSave inp' u sm uuid' now')
                = id (Summarizer.projectToSave inp u sm uuid now)).
  { cbn [Summarizer.projectToSave id inp' Summarizer.afterSave Summarizer.currentProjectId].
    apply orString_nonempty. exact Hpid. }
  rewrite Ho, Hp, Hid. split; [reflexivity |].
  apply (upsert_same_keys_of_found id). rewrite Hid, Hfind. discriminate.
Qed.

End SaveFacts.

(* ===================================================================== *)
(** * More properties of the live conversation *)
(* ===================================================================== *)
Section LiveConversationMore.
Import LiveConversation.
Local Open Scope Q_scope.





Lemma stopEverything_closes s c :
  ContextClose c ∈ (stopEverything s).2 → audioContextRef s = Some c.
Proof.
  unfold stopEverything. cbn [snd]. rewrite !elem_of_app.
  intros [H | [H | [H | [H | H]]]].
  - destruct (mediaStreamRef s); cbn in H;
      [apply list_elem_of_singleton in H; discriminate | inversion H].
  - destruct (processorRef s); cbn in H;
      [apply list_elem_of_singleton in H; discriminate | inversion H].
  - destruct (sourceRef s); cbn in H;
      [apply list_elem_of_singleton in H; discriminate | inversion H].
  - destruct (audioContextRef s); cbn in H;
      [apply list_elem_of_singleton in H; congruence | inversion H].
  - apply list_elem_of_fmap in H as (x & Hx & _). discriminate.
Qed.

Lemma Forall_not_elem_of {A} (P : A → Prop) (l : list A) x :
  Forall P l → ¬ P x → x ∉ l.
Proof. rewrite Forall_forall. intros Hl Hx Hin. exact (Hx (Hl x Hin)). Qed.

Lemma step_closes_created s e pre :
  (∀ c, audioContextRef s = Some c → NewAudioContext c 16000%Z ∈ pre) →
  (∀ c, audioContextRef (step s e).1 = Some c →
        NewAudioContext c 16000%Z ∈ pre ++ (step s e).2)
  ∧ (∀ c, ContextClose c ∈ (step s e).2 → NewAudioContext c 16000%Z ∈ pre)
  ∧ (∀ h, SessionClose h ∉ (step s e).2).
Proof.
  intros Hinv.
  assert (Hstop : (∀ c, audioContextRef (stopEverything s).1 = Some c →
                        NewAudioContext c 16000%Z ∈ pre ++ (stopEverything s).2)
                  ∧ (∀ c, ContextClose c ∈ (stopEverything s).2 →
                          NewAudioContext c 16000%Z ∈ pre)
                  ∧ (∀ h, SessionClose h ∉ (stopEverything s).2)).
  { split; [cbn; discriminate |]. split.
    - intros c Hc. apply Hinv, stopEverything_closes, Hc.
    - intros h. apply (Forall_not_elem_of (λ x, x ≠ SessionClose h));
        [apply stopEverything_Forall; discriminate | auto]. }
  assert (Hkeep : ∀ out, (∀ c, audioContextRef s = Some c →
                               NewAudioContext c 16000%Z ∈ pre ++ out)).
  { intros out c Hc. apply elem_of_app. left. apply Hinv, Hc. }
  destruct e; cbn [step]; try exact Hstop.
  - destruct (isConnected s); [exact Hstop |]. cbn. split; [| split].
    + intros c [= <-]. apply elem_of_app. right. apply list_elem_of_here.
    + intros c H. repeat (apply elem_of_cons in H as [H | H]; [discriminate H |]).
      inversion H.
    + intros h H. repeat (apply elem_of_cons in H as [H | H]; [discriminate H |]).
      inversion H.
  - cbn. split; [apply Hkeep |]. split; intros c H;
      repeat (apply elem_of_cons in H as [H | H]; [discriminate H |]); inversion H.
  - cbn. split; [apply Hkeep |]. split; intros c H;
      repeat (apply elem_of_cons in H as [H | H]; [discriminate H |]); inversion H.
  - unfold onOpen. cbn. destruct (audioContextRef s) eqn:E; cbn;
      (split; [intros c Hc; apply elem_of_app; left; apply Hinv; congruence |]);
      split; intros c H;
      repeat (apply elem_of_cons in H as [H | H]; [discriminate H |]); inversion H.
  - cbn. split; [apply Hkeep |]. split; intros c H;
      destruct (sessionRef s); cbn in H;
      repeat (apply elem_of_cons in H as [H | H]; [discriminate H |]); inversion H.
  - split; [| split].
    + intros c Hc. apply elem_of_app. left. apply Hinv. revert Hc.
      unfold onMessage, handleInterrupted.
      destruct (inlineData msg) as [[d |] |]; destruct (interrupted msg); cbn; auto.
    + intros c H. exfalso. revert H.
      apply (Forall_not_elem_of (λ x, x ≠ ContextClose c));
        [apply onMessage_Forall; discriminate | auto].
    + intros h. apply (Forall_not_elem_of (λ x, x ≠ SessionClose h));
        [apply onMessage_Forall; discriminate | auto].
  - unfold onended. cbn. split; [| split; intros c H; inversion H].
    intros c Hc. apply elem_of_app. left. apply Hinv.
    destruct (decide _); exact Hc.
Qed.

Lemma run_closes_created trace : ∀ s pre,
  (∀ c, audioContextRef s = Some c → NewAudioContext c 16000%Z ∈ pre) →
  (∀ c, ContextClose c ∈ (run s trace).2 →
        NewAudioContext c 16000%Z ∈ pre ++ (run s trace).2)
  ∧ (∀ h, SessionClose h ∉ (run s trace).2).
Proof.
  induction trace as [| e trace IH]; intros s pre Hinv.
  - cbn. split; intros c H; inversion H.
  - cbn [run]. destruct (step_closes_created s e pre Hinv) as (H1 & H2 & H3).
    destruct (step s e) as [s1 out1]. cbn [fst snd] in *.
    destruct (IH s1 (pre ++ out1) H1) as [H4 H5].
    destruct (run s1 trace) as [s2 out2]. cbn [fst snd] in *. split.
    + intros c Hc. rewrite app_assoc. apply elem_of_app in Hc as [Hc | Hc]; [| auto].
      apply elem_of_app. left. apply elem_of_app. left. auto.
    + intros h Hh. apply elem_of_app in Hh as [Hh | Hh]; [exact (H3 h Hh) | exact (H5 h Hh)].
Qed.

(** X19. In no session, whatever the events, does the component ask the live
    session to close; and every audio context it closes is one it created
    as an input context, at 16 kHz. *)
Theorem session_and_output_context_never_closed (trace : list Event) :
  let log := (run initial trace).2 in
  (∀ h, SessionClose h ∉ log)
  ∧ (∀ c, ContextClose c ∈ log → NewAudioContext c 16000%Z ∈ log).
Proof.
  intros log. subst log.
  destruct (run_closes_created trace initial []) as [H1 H2]; [cbn; discriminate |].
  split; [exact H2 | exact H1].
Qed.

Lemma elem_of_set_add x y l : x ∈ l ∨ x = y → x ∈ set_add y l.
Proof.
  unfold set_add. case_bool_decide as Hy; intros [H | ->]; auto;
    apply elem_of_app; [left | right]; auto. apply list_elem_of_here.
Qed.

Lemma step_tracks s e x :
  x ∈ sourcesRef s ∨ (∃ t, SourceStart x t ∈ (step s e).2) →
  x ∈ sourcesRef (step s e).1 ∨ SourceStop x ∈ (step s e).2 ∨ e = OnEnded x.
Proof.
  assert (Hstop : x ∈ sourcesRef s ∨ (∃ t, SourceStart x t ∈ (stopEverything s).2) →
                  SourceStop x ∈ (stopEverything s).2).
  { intros [Hx | [t Ht]].
    - unfold stopEverything. cbn [snd]. rewrite !elem_of_app. do 4 right.
      apply list_elem_of_fmap. eauto.
    - exfalso. revert Ht. apply (Forall_not_elem_of (λ y, y ≠ SourceStart x t));
        [apply stopEverything_Forall; discriminate | auto]. }
  assert (Hnone : ∀ out : list Effect, Forall (λ y, ∀ t, y ≠ SourceStart x t) out →
                  x ∈ sourcesRef s ∨ (∃ t, SourceStart x t ∈ out) → x ∈ sourcesRef s).
  { intros out Hout [Hx | [t Ht]]; [exact Hx |]. rewrite Forall_forall in Hout.
    destruct (Hout _ Ht t). reflexivity. }
  destruct e; cbn [step]; try (intros H; right; left; apply Hstop, H).
  - destruct (isConnected s); [intros H; right; left; apply Hstop, H |].
    cbn. intros H. left. refine (Hnone _ _ H); repeat constructor; discriminate.
  - cbn. intros H. left. refine (Hnone _ _ H); repeat constructor; discriminate.
  - cbn. intros H. left. refine (Hnone _ _ H); repeat constructor; discriminate.
  - unfold onOpen. cbn. destruct (audioContextRef s); cbn; intros H; left;
      refine (Hnone _ _ H); repeat constructor; discriminate.
  - cbn. intros H. left. refine (Hnone _ _ H).
    apply release_Forall. discriminate.
  - unfold onMessage, handleInterrupted.
    destruct (inlineData msg) as [[d |] |]; destruct (interrupted msg); cbn.
    + intros H. right. left. right. apply list_elem_of_fmap. exists x.
      split; [reflexivity |]. apply elem_of_set_add.
      destruct H as [Hx | [t Ht]]; [left; exact Hx |].
      apply elem_of_cons in Ht as [Ht | Ht]; [right; congruence |].
      apply list_elem_of_fmap in Ht as (y & Hy & _). discriminate.
    + intros H. left. apply elem_of_set_add.
      destruct H as [Hx | [t Ht]]; [left; exact Hx |].
      apply list_elem_of_singleton in Ht. right. congruence.
    + intros H. left. apply (Hnone [] ltac:(constructor) H).
    + intros H. left. apply (Hnone [] ltac:(constructor) H).
    + intros H. right. left. apply list_elem_of_fmap. exists x.
      split; [reflexivity |]. refine (Hnone (map SourceStop (sourcesRef s)) _ H).
      apply Forall_fmap, Forall_forall. intros y _ t. discriminate.
    + intros H. left. apply (Hnone [] ltac:(constructor) H).
  - unfold onended. cbn [fst snd setSources sourcesRef]. intros H.
    pose proof (Hnone [] ltac:(constructor) H) as Hx.
    destruct (decide (x = source)) as [-> | Hne]; [right; right; reflexivity |].
    left. assert (Hin : x ∈ set_delete source (sourcesRef s))
      by (apply list_elem_of_filter; auto).
    destruct (decide _); exact Hin.
Qed.

Lemma elem_of_ended_cons e trace x : x ∈ ended trace → x ∈ ended (e :: trace).
Proof. destruct e; cbn; auto. intros H. right. exact H. Qed.

Lemma run_tracks trace : ∀ s x,
  x ∈ sourcesRef s ∨ (∃ t, SourceStart x t ∈ (run s trace).2) →
  x ∈ sourcesRef (run s trace).1 ∨ SourceStop x ∈ (run s trace).2 ∨ x ∈ ended trace.
Proof.
  induction trace as [| e trace IH]; intros s x H.
  - cbn in *. destruct H as [Hx | [t Ht]]; [auto | inversion Ht].
  - cbn [run] in *. pose proof (step_tracks s e x) as Hstep.
    destruct (step s e) as [s1 out1]. specialize (IH s1 x).
    destruct (run s1 trace) as [s2 out2]. cbn [fst snd] in *.
    assert (Hlift : x ∈ sourcesRef s2 ∨ SourceStop x ∈ out2 ∨ x ∈ ended trace →
                    x ∈ sourcesRef s2 ∨ SourceStop x ∈ out1 ++ out2 ∨ x ∈ ended (e :: trace)).
    { intros [H1 | [H1 | H1]]; [auto | right; left; apply elem_of_app; auto |].
      right. right. apply elem_of_ended_cons, H1. }
    assert (Hfirst : x ∈ sourcesRef s ∨ (∃ t, SourceStart x t ∈ out1) →
                     x ∈ sourcesRef s2 ∨ SourceStop x ∈ out1 ++ out2 ∨ x ∈ ended (e :: trace)).
    { intros H1. destruct (Hstep H1) as [H2 | [H2 | ->]].
      - apply Hlift, IH. auto.
      - right. left. apply elem_of_app. auto.
      - right. right. cbn. apply list_elem_of_here. }
    destruct H as [Hx | [t Ht]]; [apply Hfirst; auto |].
    apply elem_of_app in Ht as [Ht | Ht]; [apply Hfirst; eauto |].
    apply Hlift, IH. eauto.
Qed.

(** X20. No source is lost: every source that was started is, at any later
    moment, still in the set, or has been stopped, or has ended.  So once
    the set is empty, as after a stop or an interruption, every source
    started before has been stopped or has ended. *)
Theorem started_sources_are_tracked (trace : list Event) (x : nat) (t : Q) :
  SourceStart x t ∈ (run initial trace).2 →
  (x ∈ sourcesRef (run initial trace).1
   ∨ SourceStop x ∈ (run initial trace).2
   ∨ x ∈ ended trace)
  ∧ (sourcesRef (run initial trace).1 = [] →
     SourceStop x ∈ (run initial trace).2 ∨ x ∈ ended trace).
Proof.
  intros Hx.
  assert (H : x ∈ sourcesRef (run initial trace).1
              ∨ SourceStop x ∈ (run initial trace).2 ∨ x ∈ ended trace)
    by (apply run_tracks; eauto).
  split; [exact H |]. intros Hnil. rewrite Hnil in H.
  destruct H as [H | H]; [inversion H | exact H].
Qed.

End LiveConversationMore.

(* ===================================================================== *)
(** * More properties of [summarizeLecture] *)
(* ===================================================================== *)
Section GeminiMore.
Import Gemini.
Variable JSON_parse : string → option Value.

(** X21. Whenever [summarizeLecture] returns, the three lists of the summary are
    arrays and the three texts are truthy values, whatever the response and
    the grounding chunks were. *)
Theorem summarizeLecture_returned_shape (text : option string)
    (groundingChunks : option (list GroundingChunk)) (s : LectureSummary) :
  summarizeLecture JSON_parse text groundingChunks = Returned s →
  isArray (claims s) = true
  ∧ isArray (transliterations s) = true
  ∧ isArray (warnings s) = true
  ∧ truthy (summary_short s) = true
  ∧ truthy (summary_medium s) = true
  ∧ truthy (summary_long s) = true.
Proof. unfold summarizeLecture. apply returned_summary_shape. Qed.

(** X22. A response text that [JSON.parse] rejects never makes [summarizeLecture]
    throw: the three texts are 'Summary generation failed.', the three lists
    are empty, and the grounding chunks are not used. *)
Theorem unparsable_response_gives_fallback (text : option string)
    (groundingChunks : option (list GroundingChunk)) :
  JSON_parse (jsonStr text) = None →
  summarizeLecture JSON_parse text groundingChunks
  = Returned (mkSummary fallback fallback fallback (VArray []) (VArray []) (VArray []))
  ∧ wellFormed (mkSummary fallback fallback fallback (VArray []) (VArray []) (VArray [])).
Proof.
  intros Hp. unfold summarizeLecture. rewrite Hp. split; [apply parse_failure_gives_fallback |].
  unfold wellFormed, isNonEmptyString, fallback. cbn.
  repeat split; try (eexists; split; [reflexivity | discriminate]).
Qed.

Lemma orElse_string a v : a ≠ ""%string → orElse (VString a) v = VString a.
Proof.
  intros Ha. unfold orElse. cbn. rewrite (proj2 (String.eqb_neq _ _) Ha). reflexivity.
Qed.

(** X23. A complete response passes unchanged: when the text parses to an object
    with the three summaries as non-empty strings and the two required lists
    as arrays, and there are no grounding chunks, [summarizeLecture] returns
    exactly these values, with the warnings of the response when they are an
    array and none otherwise. *)
Theorem complete_response_passes (text : option string)
    (props : list (string * Value)) (a b c : string) (cl tr : list Value) :
  JSON_parse (jsonStr text) = Some (VObject props) →
  complete props a b c cl tr →
  summarizeLecture JSON_parse text None
  = Returned (mkSummary (VString a) (VString b) (VString c) (VArray cl) (VArray tr)
                (arrayOrEmpty (ownProperty "warnings" props)))
  ∧ wellFormed (mkSummary (VString a) (VString b) (VString c) (VArray cl) (VArray tr)
                  (arrayOrEmpty (ownProperty "warnings" props))).
Proof.
  intros Hp (Ha & Ha' & Hb & Hb' & Hc & Hc' & Hcl & Htr).
  unfold summarizeLecture, summaryOfParsed. rewrite Hp. unfold buildSummary. cbn.
  rewrite Ha, Hb, Hc, Hcl, Htr, !orElse_string by assumption. cbn.
  split; [reflexivity |]. unfold wellFormed, isNonEmptyString. cbn.
  rewrite arrayOrEmpty_isArray. repeat split; eauto.
Qed.

End GeminiMore.

Section GeminiText.
Import Gemini.

Lemma append_cons c u s : (String c u ++ s)%string = String c (u ++ s)%string.
Proof. reflexivity. Qed.

Lemma append_nil_l s : ("" ++ s)%string = s.
Proof. reflexivity. Qed.

Lemma prefix_app p s : String.prefix p (p ++ s) = true.
Proof.
  induction p as [| c p IH]; [rewrite append_nil_l; destruct s; reflexivity |].
  rewrite append_cons. cbn [String.prefix].
  destruct (ascii_dec c c); [exact IH | congruence].
Qed.

Lemma removeAllFrom_skip pat u : ∀ s,
  removeAllFrom pat (String.length u) (u ++ s) = removeAllFrom pat 0 s.
Proof.
  induction u as [| c u IH]; intros s; [rewrite append_nil_l; reflexivity |].
  rewrite append_cons. cbn [String.length removeAllFrom]. apply IH.
Qed.

Lemma removeAll_match c0 pat s :
  removeAll (String c0 pat) (String c0 pat ++ s) = removeAll (String c0 pat) s.
Proof.
  unfold removeAll. rewrite append_cons. cbn [removeAllFrom]. unfold isPrefix.
  rewrite <- append_cons, prefix_app.
  replace (String.length (String c0 pat) - 1)%nat with (String.length pat)
    by (cbn [String.length]; lia).
  apply removeAllFrom_skip.
Qed.

Lemma removeAll_without c0 pat t : ∀ s,
  occurs c0 t = false →
  removeAll (String c0 pat) (t ++ s) = (t ++ removeAll (String c0 pat) s)%string.
Proof.
  unfold removeAll. induction t as [| c t IH]; intros s Ht; [reflexivity |].
  cbn in Ht. apply orb_false_elim in Ht as [Hc Ht].
  rewrite !append_cons. cbn [removeAllFrom]. unfold isPrefix. cbn [String.prefix].
  destruct (ascii_dec c0 c) as [-> | Hne]; [rewrite Ascii.eqb_refl in Hc; discriminate |].
  f_equal. apply IH, Ht.
Qed.

Lemma append_nil_r s : (s ++ "")%string = s.
Proof.
  induction s as [| c s IH]; [reflexivity | rewrite append_cons, IH; reflexivity].
Qed.

(** X24. What the two replacements of the cleaning do to the response
    text.  A text without a backquote passes through both unchanged.  A text
    wrapped in a code fence tagged json, with no backquote inside, comes out
    as the text inside the fence. *)
Theorem fence_replacements_unwrap (t : string) :
  occurs "`" t = false →
  removeAll "```" (removeAll "```json" t) = t
  ∧ removeAll "```" (removeAll "```json" ("```json" ++ t ++ "```")%string) = t.
Proof.
  intros Ht. split.
  - rewrite <- (append_nil_r t) at 1.
    rewrite (removeAll_without "`" "``json" t "" Ht).
    change (removeAll "```json" "") with ""%string.
    rewrite (removeAll_without "`" "``" t "" Ht).
    change (removeAll "```" "") with ""%string.
    apply append_nil_r.
  - rewrite (removeAll_match "`" "``json").
    rewrite (removeAll_without "`" "``json" t "```" Ht).
    change (removeAll "```json" "```") with "```"%string.
    rewrite (removeAll_without "`" "``" t "```" Ht).
    change (removeAll "```" "```") with ""%string.
    apply append_nil_r.
Qed.

Lemma ownProperty_putProperty_same name x props :
  ownProperty name (putProperty name x props) = x.
Proof.
  induction props as [| [k v] props IH]; cbn; [rewrite String.eqb_refl; reflexivity |].
  destruct (String.eqb name k) eqn:E; cbn; rewrite E; [reflexivity | exact IH].
Qed.

Lemma ownProperty_putProperty_other name other x props :
  other ≠ name →
  ownProperty other (putProperty name x props) = ownProperty other props.
Proof.
  intros Hne. induction props as [| [k v] props IH]; cbn.
  - rewrite (proj2 (String.eqb_neq _ _) Hne). reflexivity.
  - destruct (String.eqb name k) eqn:E; cbn; [| rewrite IH; reflexivity].
    apply String.eqb_eq in E. subst k. rewrite (proj2 (String.eqb_neq _ _) Hne). reflexivity.
Qed.

(** X25. The sources found by the search go to the first claim and to no other:
    when the first claim is an object and some grounding chunk has a web
    address, the summary returned differs only in that claim, which has the
    list of sources as its [sources] and its other properties as before.
    Without grounding chunks, or when none has a web address, the summary is
    returned as it is. *)
Theorem sources_go_to_first_claim (s : LectureSummary) (chunks : list GroundingChunk)
    (props : list (string * Value)) (rest : list Value) :
  claims s = VArray (VObject props :: rest) →
  attachSources None s = Returned s
  ∧ (groundingSources chunks = [] → attachSources (Some chunks) s = Returned s)
  ∧ (groundingSources chunks ≠ [] →
     ∃ props',
       attachSources (Some chunks) s
       = Returned (setClaims (VArray (VObject props' :: rest)) s)
       ∧ ownProperty "sources" props' = VArray (groundingSources chunks)
       ∧ ∀ name, name ≠ "sources"%string →
                 ownProperty name props' = ownProperty name props).
Proof.
  intros Hc. unfold attachSources. rewrite Hc. split; [reflexivity |]. split.
  - intros ->. reflexivity.
  - intros Hne. destruct (groundingSources chunks) as [| src srcs]; [congruence |].
    cbn. eexists. split; [reflexivity |]. split.
    + apply ownProperty_putProperty_same.
    + intros name Hname. apply ownProperty_putProperty_other. exact Hname.
Qed.

End GeminiText.

(* ===================================================================== *)
(** * Properties of the chat and of the tour *)
(* ===================================================================== *)
Section ChatFacts.
Import ChatInterface.

Lemma trim_empty : Gemini.trim "" = ""%string.
Proof. reflexivity. Qed.

Lemma step_messages st e :
  ∃ more, messages (step st e) = messages st ++ more
          ∧ Forall (λ m, text m ≠ ""%string) more
          ∧ (e = Send → chatSession st = None ∨ Gemini.trim (input st) = ""%string →
             step st e = st).
Proof.
  destruct e; cbn [step].
  - exists []. rewrite app_nil_r. repeat split; [constructor | discriminate].
  - unfold handleSend_begin.
    destruct (String.eqb_spec (Gemini.trim (input st)) "") as [Ht | Ht]; cbn [orb].
    + exists []. rewrite app_nil_r. repeat split; constructor.
    + destruct (chatSession st) as [c |] eqn:Ec; cbn.
      * eexists. split; [reflexivity |]. split.
        -- repeat constructor. cbn. intros Hi. apply Ht. rewrite Hi. reflexivity.
        -- intros _ [Hn | Hn]; [discriminate | contradiction].
      * exists []. rewrite app_nil_r. repeat split; constructor.
  - unfold handleSend_resolved. eexists. split; [reflexivity |].
    split; [| discriminate]. repeat constructor. cbn.
    destruct answer as [t |]; [| discriminate].
    destruct (String.eqb_spec t ""); [discriminate | assumption].
  - unfold handleSend_rejected. eexists. split; [reflexivity |].
    split; [| discriminate]. repeat constructor. cbn. discriminate.
Qed.

(** X26. The conversation only grows, and no bubble is empty: after any typing,
    sending and answering, the list of messages starts with the messages
    there were and the greeting is still first, and every message has a
    text, a missing or empty answer being replaced. *)
Theorem chat_never_shows_empty_message (chat : nat) (trace : list Event) :
  ∃ more,
    messages (run (mounted chat) trace) = greeting :: more
    ∧ Forall (λ m, text m ≠ ""%string) (messages (run (mounted chat) trace)).
Proof.
  assert (H : ∀ st, ∃ more, messages (run st trace) = messages st ++ more
                           ∧ Forall (λ m, text m ≠ ""%string) more).
  { induction trace as [| e trace IH]; intros st.
    - exists []. rewrite app_nil_r. split; [reflexivity | constructor].
    - cbn. destruct (step_messages st e) as (m1 & H1 & H2 & _).
      destruct (IH (step st e)) as (m2 & H3 & H4).
      exists (m1 ++ m2). unfold run in H3. rewrite H3, H1, app_assoc.
      split; [reflexivity |]. apply Forall_app. auto. }
  destruct (H (mounted chat)) as (more & Hm & Hmore). exists more.
  rewrite Hm. split; [reflexivity |]. cbn. constructor; [discriminate | exact Hmore].
Qed.

End ChatFacts.

Section TourFacts.
Import OnboardingTour.
Local Open Scope Q_scope.

Lemma click_in_range i c : (i < length STEPS)%nat → (click i c < length STEPS)%nat.
Proof.
  change (length STEPS) with 6%nat. intros Hi.
  destruct c; unfold click, handleNext, handlePrev;
    change (length STEPS) with 6%nat; cbn [fst].
  - destruct (Nat.ltb_spec i (6 - 1)); cbn; lia.
  - destruct (Nat.ltb_spec 0 i); lia.
Qed.

(** X27. The tour always shows a step: after any clicks on Next and Previous the
    index is within the table, so [STEPS[currentStepIndex]] is defined.
    Next closes the tour exactly on the last step, leaving the index;
    before the last step it moves on and Previous then leads back. *)
Theorem tour_index_stays_in_range (clicks : list Click) :
  is_Some (STEPS !! foldl click 0%nat clicks)
  ∧ (∀ i, (i < length STEPS)%nat →
       ((handleNext i).2 = true ↔ i = (length STEPS - 1)%nat)
       ∧ ((handleNext i).2 = true → (handleNext i).1 = i)
       ∧ ((handleNext i).2 = false → handlePrev (handleNext i).1 = i)).
Proof.
  split.
  - apply lookup_lt_is_Some.
    assert (H : ∀ i, (i < length STEPS)%nat → (foldl click i clicks < length STEPS)%nat).
    { induction clicks as [| c clicks IH]; intros i Hi; [exact Hi |].
      cbn. apply IH, click_in_range, Hi. }
    apply H. cbn. lia.
  - change (length STEPS) with 6%nat. intros i Hi. unfold handleNext, handlePrev.
    change (length STEPS) with 6%nat.
    destruct (Nat.ltb_spec i (6 - 1)); cbn [fst snd].
    + split; [split; [discriminate | lia] |]. split; [discriminate |]. intros _.
      destruct (Nat.ltb_spec 0 (i + 1)); lia.
    + split; [split; [lia | reflexivity] |]. split; [reflexivity | discriminate].
Qed.


End TourFacts.

(* ===================================================================== *)
(** * The properties at sample data *)
(* ===================================================================== *)

Lemma user_ids_stay_distinct_witness :
  Storage.distinctIds
    (Storage.register Storage.asciiToLowerCase "Carol" "c@x" "id1" Examples.aliceBobStore).1.
Proof.
  apply (user_ids_stay_distinct Storage.asciiToLowerCase Examples.aliceBobStore).
  unfold Storage.distinctIds. cbn. repeat constructor; rewrite ?elem_of_cons, ?elem_of_nil;
    intros H; repeat destruct H as [H | H]; discriminate || exact H.
Defined.

Lemma register_logout_login_witness :
  Storage.getCurrentUser
    (Storage.register Storage.asciiToLowerCase "Bob" "b@x" "id2" Examples.aliceStore).1
  = Some Examples.bob.
Proof.
  apply (register_logout_login Storage.asciiToLowerCase "Bob" "b@x" "id2"
           Examples.aliceStore _ Examples.bob).
  - reflexivity.
  - discriminate.
Defined.

Lemma login_sets_current_user_witness :
  Storage.getCurrentUser
    (Storage.login Storage.asciiToLowerCase "ALICE" Examples.aliceBobStore).1
  = Some Examples.alice.
Proof.
  apply (login_sets_current_user Storage.asciiToLowerCase "ALICE"
           Examples.aliceBobStore _ Examples.alice).
  - reflexivity.
  - unfold Storage.distinctIds. cbn. repeat constructor; rewrite ?elem_of_cons, ?elem_of_nil;
      intros H; repeat destruct H as [H | H]; discriminate || exact H.
  - discriminate.
Defined.

Lemma handleDelete_keeps_view_in_step_witness :
  (Dashboard.handleDelete true "p2" (Projects.getProjects "id1" Examples.projectStore)
     Examples.projectStore).1
  = Projects.getProjects "id1"
      (Dashboard.handleDelete true "p2" (Projects.getProjects "id1" Examples.projectStore)
         Examples.projectStore).2.
Proof.
  apply (handleDelete_keeps_view_in_step true "id1" "p2"). reflexivity.
Defined.

Lemma handleSave_stores_preferences_witness :
  Storage.findById "id1"
    (Storage.getUsers
       (Projects.userItems
          (Summarizer.handleSave Examples.aliceForm "p9" 300 Examples.projectStore).1))
  = Some (Storage.withPreferences (Storage.mkPreferences Storage.Buckwalter true)
            Examples.alice).
Proof.
  apply (handleSave_stores_preferences Examples.aliceForm "p9" 300 Examples.projectStore
           _ "p9" Examples.alice); reflexivity.
Defined.

Lemma handleSave_again_overwrites_witness :
  Projects.id
  <$> Projects.allProjects
        (Summarizer.handleSave
           (Summarizer.afterSave Examples.aliceForm (Summarizer.Saved "p9")) "p10" 400
           (Summarizer.handleSave Examples.aliceForm "p9" 300 Examples.projectStore).1).1
  = Projects.id
    <$> Projects.allProjects
          (Summarizer.handleSave Examples.aliceForm "p9" 300 Examples.projectStore).1.
Proof.
  apply (handleSave_again_overwrites Examples.aliceForm "p9" "p10" 300 400
           Examples.projectStore _ "p9").
  - reflexivity.
  - discriminate.
Defined.


Lemma started_sources_are_tracked_witness :
  LiveConversation.SourceStop 1
  ∈ (LiveConversation.run LiveConversation.initial Examples.playAndEnd).2
  ∨ 1%nat ∈ LiveConversation.ended Examples.playAndEnd.
Proof.
  apply (started_sources_are_tracked Examples.playAndEnd 1%nat 2%Q).
  - cbn. apply list_elem_of_here.
  - reflexivity.
Defined.

Lemma summarizeLecture_returned_shape_witness :
  Gemini.isArray (Gemini.claims Examples.emptySummary) = true
  ∧ Gemini.isArray (Gemini.transliterations Examples.emptySummary) = true
  ∧ Gemini.isArray (Gemini.warnings Examples.emptySummary) = true
  ∧ Gemini.truthy (Gemini.summary_short Examples.emptySummary) = true
  ∧ Gemini.truthy (Gemini.summary_medium Examples.emptySummary) = true
  ∧ Gemini.truthy (Gemini.summary_long Examples.emptySummary) = true.
Proof.
  apply (summarizeLecture_returned_shape Gemini.parseLiteral (Some "no json"%string) None).
  reflexivity.
Defined.

Lemma unparsable_response_gives_fallback_witness :
  Gemini.summarizeLecture Gemini.parseLiteral (Some "no json"%string)
    (Some Examples.oneSource)
  = Returned Examples.emptySummary.
Proof.
  apply (unparsable_response_gives_fallback Gemini.parseLiteral (Some "no json"%string)
           (Some Examples.oneSource)).
  reflexivity.
Defined.

Lemma complete_response_passes_witness :
  Gemini.summarizeLecture (λ _, Some (Gemini.VObject Examples.completeProps))
    (Some "{}"%string) None
  = Returned Examples.completeSummary.
Proof.
  apply (complete_response_passes (λ _, Some (Gemini.VObject Examples.completeProps))
           (Some "{}"%string) Examples.completeProps "short" "medium" "long"
           [Gemini.VObject [("id"%string, Gemini.VNumber 1)]] []).
  - reflexivity.
  - unfold Gemini.complete. cbn. repeat split; discriminate.
Defined.

Lemma fence_replacements_unwrap_witness :
  Gemini.removeAll "```"
    (Gemini.removeAll "```json" ("```json" ++ " {} " ++ "```")%string)
  = " {} "%string.
Proof. apply (fence_replacements_unwrap " {} "). reflexivity. Defined.

Lemma sources_go_to_first_claim_witness :
  ∃ props',
    Gemini.attachSources (Some Examples.oneSource) Examples.completeSummary
    = Returned (Gemini.setClaims (Gemini.VArray [Gemini.VObject props'])
                  Examples.completeSummary)
    ∧ Gemini.ownProperty "sources" props'
      = Gemini.VArray (Gemini.groundingSources Examples.oneSource)
    ∧ ∀ name, name ≠ "sources"%string →
              Gemini.ownProperty name props'
              = Gemini.ownProperty name [("id"%string, Gemini.VNumber 1)].
Proof.
  apply (sources_go_to_first_claim Examples.completeSummary Examples.oneSource
           [("id"%string, Gemini.VNumber 1)] []).
  - reflexivity.
  - cbn. discriminate.
Defined.

